(** * HMAC-SHA256 request signing of seaverse-go (package signature/v1)

    A shallow embedding of [signature/v1/hmac.go]: the canonical string of
    a parameter map, [Sign] and [Verify], together with the parts of the Go
    library the code calls ([strconv], [sort.Strings], [crypto/sha256],
    [crypto/hmac], [encoding/hex], [crypto/subtle]).

    Go strings are byte sequences; they are modelled by [string], whose
    characters are the 256 values of [ascii]. *)

From Stdlib Require Import ZArith Lia Ascii.
From Stdlib Require String.
From Stdlib Require Import Floats.SpecFloat.
From stdpp Require Import gmap strings list sorting.

Local Open Scope Z_scope.

(** ** Strings as byte sequences *)

Module GoString.

(** [[]byte(s)], each byte as its value in [0, 256). *)
Fixpoint bytes (s : string) : list Z :=
  match s with
  | EmptyString => []
  | String c s' => Z.of_N (N_of_ascii c) :: bytes s'
  end.

(** [s1 < s2]: the byte-wise lexicographic order of Go's string
    comparison. *)
Definition lt (s1 s2 : string) : bool := String.ltb s1 s2.

(** [s == ""] *)
Definition is_empty (s : string) : bool :=
  match s with EmptyString => true | String _ _ => false end.

(** The characters of [s], for [for _, c := range s] on text without
    multi-byte characters. *)
Definition chars (s : string) : list ascii := String.list_ascii_of_string s.

(** The string [s] with the character at index [i] replaced by [c]. *)
Fixpoint set_char (i : nat) (c : ascii) (s : string) : string :=
  match s, i with
  | EmptyString, _ => EmptyString
  | String _ s', O => String c s'
  | String a s', S i' => String a (set_char i' c s')
  end.

End GoString.

(** ** [sort.Strings] *)

Module Sort.

(** One step of the insertion sort the library runs on short slices:
    the new element moves left past every element it is smaller than. *)
Fixpoint insert (k : string) (l : list string) : list string :=
  match l with
  | [] => [k]
  | x :: l' => if GoString.lt k x then k :: x :: l' else x :: insert k l'
  end.

(** [sort.Strings(keys)]: sorts in increasing byte-wise order. *)
Definition Strings (keys : list string) : list string :=
  fold_left (fun acc k => insert k acc) keys [].

End Sort.

(** ** [strconv]: integers and booleans *)

Module Strconv.

(** The character of the decimal digit [d]: ['0' + d]. *)
Definition digit_char (d : Z) : ascii := ascii_of_N (Z.to_N (48 + d)).

(** The digit loop of [formatBits] for base 10: the digits of [u] are
    produced from the least significant one and written in front of what
    is already in the buffer.  A 64-bit value has at most 20 of them. *)
Fixpoint formatBits (fuel : nat) (u : Z) (buf : string) : string :=
  match fuel with
  | O => buf
  | S fuel' =>
      if u <? 10 then String (digit_char u) buf
      else formatBits fuel' (u / 10) (String (digit_char (u mod 10)) buf)
  end.

(** [strconv.FormatUint(u, 10)] *)
Definition FormatUint (u : Z) : string := formatBits 20 u EmptyString.

(** [strconv.FormatInt(i, 10)]: a minus sign and the digits of the
    magnitude for a negative [i]. *)
Definition FormatInt (i : Z) : string :=
  if i <? 0 then String "-"%char (FormatUint (- i)) else FormatUint i.

(** [strconv.Itoa(i)] is [FormatInt(int64(i), 10)]. *)
Definition Itoa (i : Z) : string := FormatInt i.

(** [strconv.FormatBool] *)
Definition FormatBool (b : bool) : string := if b then "true" else "false".

(** *** [strconv.FormatFloat(x, 'f', -1, bitSize)]

    A float is a [spec_float]: a signed zero, an infinity, NaN, or
    [S754_finite sign m e] of value [m * 2^e].  The value is decoded by
    [genericFtoa] into a mantissa and an exponent; the digits are the
    shortest decimal that reads back as the same float, and [fmtF]
    lays them out without an exponent. *)

Record floatInfo := FloatInfo { mantbits : Z; expbits : Z; bias : Z }.
Definition float32info : floatInfo := FloatInfo 23 8 (-127).
Definition float64info : floatInfo := FloatInfo 52 11 (-1023).

(** The exponent of the last mantissa bit of the smallest binade:
    [minexp - mantbits] with [minexp = bias + 1]. *)
Definition emin (flt : floatInfo) : Z := bias flt + 1 - mantbits flt.

(** A dyadic number [(n, e)] is [n * 2^e]; a decimal [(k, p)] is
    [k * 10^p].  Both are counted in units of [2^min(e,0) * 10^min(p,0)]:
    the decimal is [k * den p e] units and the dyadic [n * num p e]. *)
Definition num (p e : Z) : Z := 2 ^ Z.max e 0 * 10 ^ Z.max (- p) 0.
Definition den (p e : Z) : Z := 2 ^ Z.max (- e) 0 * 10 ^ Z.max p 0.

(** The exact comparison of [k * 10^p] with [n * 2^e]. *)
Definition cmp_dec_dyadic (k p n e : Z) : comparison :=
  (k * den p e ?= n * num p e).

(** [floor (n * 2^e / 10^p)] *)
Definition floor_at (p n e : Z) : Z := (n * num p e) / den p e.

(** The lower bound of the decimals that read back as [m * 2^e]: halfway
    to the next lower float, which is closer when [m] is the least
    mantissa of a binade above the smallest. *)
Definition lower_bound (flt : floatInfo) (m e : Z) : Z * Z :=
  if (2 ^ mantbits flt <? m) || (e =? emin flt)
  then (2 * m - 1, e - 1)
  else (4 * m - 1, e - 2).

(** The upper bound: halfway to the next higher float. *)
Definition upper_bound (m e : Z) : Z * Z := (2 * m + 1, e - 1).

(** The bounds themselves read back as the float only when the mantissa
    is even (round half to even). *)
Definition inclusive (m : Z) : bool := Z.even m.

(** The decimal [(k, p)] is not below the lower bound, or not above the
    upper one. *)
Definition above_lower (flt : floatInfo) (m e k p : Z) : bool :=
  let '(n, e') := lower_bound flt m e in
  match cmp_dec_dyadic k p n e' with
  | Gt => true
  | Eq => inclusive m
  | Lt => false
  end.

Definition below_upper (m e k p : Z) : bool :=
  let '(n, e') := upper_bound m e in
  match cmp_dec_dyadic k p n e' with
  | Lt => true
  | Eq => inclusive m
  | Gt => false
  end.

(** The decimal [(k, p)] reads back as the float [m * 2^e]. *)
Definition reads_back (flt : floatInfo) (m e k p : Z) : bool :=
  above_lower flt m e k p && below_upper m e k p.

(** [d.Round]: of [lo] and [lo + 1] units of [10^p], the one nearer to
    [m * 2^e], the one with an even last digit when halfway. *)
Definition round_nearest (m e lo p : Z) : Z :=
  match cmp_dec_dyadic (2 * lo + 1) p (2 * m) e with
  | Gt => lo
  | Lt => lo + 1
  | Eq => if Z.even lo then lo else lo + 1
  end.

(** The digits of the shortest decimal, as [roundShortest] finds them (the
    fast path [ryuFtoaShortest] returns the same digits): walk down the
    decimal places until the value cut at place [p] can be rounded down
    ([okdown]), or up ([okup]), to a decimal that still reads back as the
    float; when both are possible, round to the nearest.  At its last
    place the value itself is a whole number of units. *)
Fixpoint shortest_loop (flt : floatInfo) (m e : Z) (fuel : nat) (p : Z)
  : Z * Z :=
  match fuel with
  | O => (floor_at p m e, p)
  | S fuel' =>
      let lo := floor_at p m e in
      let okdown := above_lower flt m e lo p in
      let okup := below_upper m e (lo + 1) p in
      if okdown && okup then (round_nearest m e lo p, p)
      else if okdown then (lo, p)
      else if okup then (lo + 1, p)
      else shortest_loop flt m e fuel' (p - 1)
  end.

(** A decimal place above every digit of the upper bound. *)
Definition top_place (m e : Z) : Z := Z.max 0 (Z.log2 (2 * m + 1) + e).

(** The last decimal place of [m * 2^e]. *)
Definition last_place (e : Z) : Z := Z.min e 0.

Definition shortest (flt : floatInfo) (m e : Z) : Z * Z :=
  shortest_loop flt m e
    (Z.to_nat (top_place m e - last_place e)) (top_place m e).

(** A [decimalSlice]: the digits [d] and the position [dp] of the
    decimal point; [nd] is the length of [d]. *)
Record decimalSlice := DecimalSlice { d : list ascii; dp : Z }.

Definition nd (ds : decimalSlice) : Z := Z.of_nat (length (d ds)).

(** The decimal digits of [k]. *)
Definition digits_of (k : Z) : list ascii :=
  GoString.chars (formatBits (S (Z.to_nat (Z.log2 k))) k EmptyString).

(** The slice of the decimal [k * 10^p]: the point is [p] places after
    the last digit of [k]. *)
Definition slice_of (kp : Z * Z) : decimalSlice :=
  let ds := digits_of (fst kp) in
  DecimalSlice ds (Z.of_nat (length ds) + snd kp).

(** [n] times the character [0]. *)
Definition zeros (n : Z) : list ascii := replicate (Z.to_nat n) "0"%char.

(** [fmtF]: [%f], that is [-ddddddd.ddddd]. *)
Definition fmtF (neg : bool) (ds : decimalSlice) (prec : Z) : string :=
  let sign := if neg then ["-"%char] else [] in
  let integer :=
    if 0 <? dp ds then
      let m := Z.min (nd ds) (dp ds) in
      firstn (Z.to_nat m) (d ds) ++ zeros (dp ds - m)
    else ["0"%char] in
  let fraction :=
    if 0 <? prec then
      "."%char ::
        map (fun i => let j := dp ds + i in
                      if (0 <=? j) && (j <? nd ds)
                      then nth (Z.to_nat j) (d ds) "0"%char
                      else "0"%char)
            (map Z.of_nat (seq 0 (Z.to_nat prec)))
    else [] in
  String.string_of_list_ascii (sign ++ integer ++ fraction).

(** [genericFtoa] takes the format of the float from [bitSize]. *)
Definition info_of (bitSize : Z) : floatInfo :=
  if bitSize =? 32 then float32info else float64info.

(** [genericFtoa] with [fmt = 'f'] and [prec = -1]: the special values
    have names; a zero has no digits; otherwise the shortest digits are
    laid out with [max(nd - dp, 0)] decimal places. *)
Definition FormatFloat_f_shortest (x : spec_float) (bitSize : Z) : string :=
  match x with
  | S754_nan => "NaN"
  | S754_infinity true => "-Inf"
  | S754_infinity false => "+Inf"
  | S754_zero neg => fmtF neg (DecimalSlice [] 0) 0
  | S754_finite neg m e =>
      let digs := slice_of (shortest (info_of bitSize) (Z.pos m) e) in
      fmtF neg digs (Z.max (nd digs - dp digs) 0)
  end.

End Strconv.

(** ** [crypto/sha256] *)

Module Sha256.

Definition Size : nat := 32.
Definition BlockSize : nat := 64.

(** 32-bit words are integers in [0, 2^32); [uint32] arithmetic wraps. *)
Definition wrap32 (x : Z) : Z := x mod 4294967296.
Definition add32 (x y : Z) : Z := wrap32 (x + y).

(** [bits.RotateLeft32(x, -n)] *)
Definition rotr (n x : Z) : Z :=
  Z.lor (Z.shiftr x n) (wrap32 (Z.shiftl x (32 - n))).

(** [^x] on a 32-bit word. *)
Definition not32 (x : Z) : Z := 4294967295 - x.

(** The table [_K] of round constants.  FIPS 180-4 defines them as the
    first 32 bits of the fractional parts of the cube roots of the first
    64 primes; the table is computed from that definition. *)
Fixpoint cube_root_bits (n : nat) (x r : Z) : Z :=
  match n with
  | O => r
  | S n' =>
      let r' := r + 2 ^ Z.of_nat n' in
      cube_root_bits n' x (if r' * r' * r' <=? x then r' else r)
  end.

(** The first 32 bits of the fractional part of the cube root of [p]. *)
Definition cube_root_frac32 (p : Z) : Z :=
  wrap32 (cube_root_bits 36 (p * 2 ^ 96) 0).

Definition primes64 : list Z :=
  [2; 3; 5; 7; 11; 13; 17; 19; 23; 29; 31; 37; 41; 43; 47; 53;
   59; 61; 67; 71; 73; 79; 83; 89; 97; 101; 103; 107; 109; 113; 127; 131;
   137; 139; 149; 151; 157; 163; 167; 173; 179; 181; 191; 193; 197; 199;
   211; 223; 227; 229; 233; 239; 241; 251; 257; 263; 269; 271; 277; 281;
   283; 293; 307; 311].

Definition _K : list Z := Eval vm_compute in map cube_root_frac32 primes64.

(** The chaining value [h0 .. h7] of a digest. *)
Record state := State {
  h0 : Z; h1 : Z; h2 : Z; h3 : Z; h4 : Z; h5 : Z; h6 : Z; h7 : Z }.

(** The initial value [init0 .. init7]. *)
Definition init : state :=
  State 0x6a09e667 0xbb67ae85 0x3c6ef372 0xa54ff53a
        0x510e527f 0x9b05688c 0x1f83d9ab 0x5be0cd19.

(** Big-endian load of the sixteen words of one block. *)
Fixpoint load_words (n : nat) (p : list Z) : list Z :=
  match n, p with
  | S n', b0 :: b1 :: b2 :: b3 :: p' =>
      Z.lor (Z.lor (Z.shiftl b0 24) (Z.shiftl b1 16))
            (Z.lor (Z.shiftl b2 8) b3) :: load_words n' p'
  | _, _ => []
  end.

(** The message schedule, kept most recent word first:
    [w[i] = s1(w[i-2]) + w[i-7] + s0(w[i-15]) + w[i-16]]. *)
Definition next_w (rw : list Z) : Z :=
  let v1 := nth 1 rw 0 in
  let t1 := Z.lxor (Z.lxor (rotr 17 v1) (rotr 19 v1)) (Z.shiftr v1 10) in
  let v2 := nth 14 rw 0 in
  let t2 := Z.lxor (Z.lxor (rotr 7 v2) (rotr 18 v2)) (Z.shiftr v2 3) in
  add32 (add32 (add32 t1 (nth 6 rw 0)) t2) (nth 15 rw 0).

(** [n] more words of the schedule. *)
Fixpoint extend (n : nat) (rw : list Z) : list Z :=
  match n with
  | O => rw
  | S n' => extend n' (next_w rw :: rw)
  end.

(** The 64 words [w[0] .. w[63]] of a block. *)
Definition schedule (p : list Z) : list Z :=
  rev (extend 48 (rev (load_words 16 p))).

(** One of the 64 rounds on the working variables [a .. h]. *)
Definition round (s : state) (kw : Z * Z) : state :=
  let '(State a b c d e f g h) := s in
  let t1 := add32 (add32 (add32 (add32 h
              (Z.lxor (Z.lxor (rotr 6 e) (rotr 11 e)) (rotr 25 e)))
              (Z.lxor (Z.land e f) (Z.land (not32 e) g)))
              (fst kw)) (snd kw) in
  let t2 := add32
              (Z.lxor (Z.lxor (rotr 2 a) (rotr 13 a)) (rotr 22 a))
              (Z.lxor (Z.lxor (Z.land a b) (Z.land a c)) (Z.land b c)) in
  State (add32 t1 t2) a b c (add32 d t1) e f g.

(** [blockGeneric] on one 64-byte chunk. *)
Definition block1 (s : state) (p : list Z) : state :=
  let '(State a b c d e f g h) :=
    fold_left round (combine _K (schedule p)) s in
  State (add32 (h0 s) a) (add32 (h1 s) b) (add32 (h2 s) c) (add32 (h3 s) d)
        (add32 (h4 s) e) (add32 (h5 s) f) (add32 (h6 s) g) (add32 (h7 s) h).

(** [blockGeneric] on a whole number of chunks; a shorter tail is left. *)
Fixpoint block (n : nat) (s : state) (p : list Z) : state :=
  match n with
  | O => s
  | S n' => block n' (block1 s (firstn 64 p)) (skipn 64 p)
  end.

(** Big-endian store of [x] on [n] bytes. *)
Fixpoint be_bytes (n : nat) (x : Z) : list Z :=
  match n with
  | O => []
  | S n' => Z.land (Z.shiftr x (8 * Z.of_nat n')) 255 :: be_bytes n' x
  end.

(** [checkSum]: the padding is a byte [0x80], zero bytes up to 56 modulo
    64, and the length in bits on eight bytes. *)
Definition padding (len : nat) : list Z :=
  let t := (len mod 64)%nat in
  let zeros := if (t <? 56)%nat then (55 - t)%nat else (119 - t)%nat in
  128 :: repeat 0 zeros ++ be_bytes 8 (8 * Z.of_nat len).

(** The digest: the eight words of the state, big-endian. *)
Definition digest_bytes (s : state) : list Z :=
  be_bytes 4 (h0 s) ++ be_bytes 4 (h1 s) ++ be_bytes 4 (h2 s) ++
  be_bytes 4 (h3 s) ++ be_bytes 4 (h4 s) ++ be_bytes 4 (h5 s) ++
  be_bytes 4 (h6 s) ++ be_bytes 4 (h7 s).

(** [sha256.Sum256(data)], also what [New]; [Write(data)]; [Sum(nil)]
    returns. *)
Definition Sum256 (data : list Z) : list Z :=
  let p := data ++ padding (length data) in
  digest_bytes (block (length p / 64) init p).

End Sha256.

(** ** [crypto/hmac] and [crypto/subtle] *)

Module Subtle.

(** What an observer of the running time learns from one step: which way
    a branch went and which slice index was read. *)
Inductive leak :=
| LBranch (taken : bool)
| LIndex (i : nat).

(** [ConstantTimeByteEq(x, y)]: [int((uint32(x^y) - 1) >> 31)]. *)
Definition ConstantTimeByteEq (x y : Z) : Z :=
  Z.shiftr ((Z.lxor x y - 1) mod 4294967296) 31.

(** The loop [for i := 0; i < len(x); i++ { v |= x[i] ^ y[i] }], with what
    each iteration lets the observer see. *)
Fixpoint compare_loop (i : nat) (x y : list Z) (v : Z) (tr : list leak)
  : Z * list leak :=
  match x, y with
  | a :: x', b :: y' =>
      compare_loop (S i) x' y' (Z.lor v (Z.lxor a b))
                   (tr ++ [LBranch true; LIndex i; LIndex i])
  | _, _ => (v, tr ++ [LBranch false])
  end.

(** [ConstantTimeCompare(x, y)] with its leakage. *)
Definition ConstantTimeCompare_leak (x y : list Z) : Z * list leak :=
  if negb (length x =? length y)%nat then (0, [LBranch true])
  else
    let '(v, tr) := compare_loop 0 x y 0 [LBranch false] in
    (ConstantTimeByteEq v 0, tr).

(** [ConstantTimeCompare(x, y)]: 1 when the slices are equal, else 0. *)
Definition ConstantTimeCompare (x y : list Z) : Z :=
  fst (ConstantTimeCompare_leak x y).

End Subtle.

Module Hmac.

(** The key block with every byte xored with [c]: [ipad] for [0x36],
    [opad] for [0x5c]. *)
Definition xor_pad (c : Z) (key : list Z) : list Z :=
  map (fun b => Z.lxor b c) key.

(** [hmac.New(sha256.New, key)]: a key longer than the block size is
    hashed first; the key block is the key followed by zero bytes. *)
Definition key_block (key : list Z) : list Z :=
  let k := if (Sha256.BlockSize <? length key)%nat
           then Sha256.Sum256 key else key in
  k ++ repeat 0 (Sha256.BlockSize - length k).

(** [h.Write(msg)]; [h.Sum(nil)] *)
Definition Sum (key msg : list Z) : list Z :=
  let kb := key_block key in
  let inner := Sha256.Sum256 (xor_pad 0x36 kb ++ msg) in
  Sha256.Sum256 (xor_pad 0x5c kb ++ inner).

(** [hmac.Equal(mac1, mac2)], with the leakage of the comparison. *)
Definition Equal_leak (mac1 mac2 : list Z) : bool * list Subtle.leak :=
  let '(r, tr) := Subtle.ConstantTimeCompare_leak mac1 mac2 in
  (r =? 1, tr).

Definition Equal (mac1 mac2 : list Z) : bool :=
  fst (Equal_leak mac1 mac2).

End Hmac.

(** ** [encoding/hex] *)

Module Hex.

(** [hextable] *)
Definition hextable : string := "0123456789abcdef".

(** [hextable[v]] *)
Definition hexdigit (v : Z) : ascii :=
  match String.get (Z.to_nat v) hextable with
  | Some c => c
  | None => "0"%char
  end.

(** [hex.EncodeToString(src)] *)
Fixpoint EncodeToString (src : list Z) : string :=
  match src with
  | [] => EmptyString
  | v :: src' =>
      String (hexdigit (Z.shiftr v 4))
        (String (hexdigit (Z.land v 15)) (EncodeToString src'))
  end.

End Hex.

(** The digest and the MAC of texts, in hexadecimal, as test vectors
    give them. *)
Definition hex_of (s : string) : string :=
  Hex.EncodeToString (Sha256.Sum256 (GoString.bytes s)).
Definition hmac_hex (k m : string) : string :=
  Hex.EncodeToString (Hmac.Sum (GoString.bytes k) (GoString.bytes m)).

(** ** Package [signature]: [signature/v1/hmac.go] *)

Module Signature.

(** A value of type [any].  The dynamic types the type switch of
    [valueToString] names each have a constructor, with an integer as its
    mathematical value and a float as the [spec_float] of its format; a
    value of any other dynamic type is kept as the text
    [fmt.Sprintf("%v", val)] renders it as. *)
Inductive any :=
| nil_any
| string_any (val : string)
| int_any (val : Z)
| int32_any (val : Z)
| int64_any (val : Z)
| uint_any (val : Z)
| uint32_any (val : Z)
| uint64_any (val : Z)
| float32_any (val : spec_float)
| float64_any (val : spec_float)
| bool_any (val : bool)
| other_any (rendering : string).

(** A [map[string]any]; [None] is the nil map. *)
Abbreviation params_t := (option (gmap string any)).

(** An [error] is its message. *)
Definition error := string.

(** A [Signer] holds the secret key. *)
Record Signer := { secret : string }.

Definition NewSigner (secret : string) : Signer := {| secret := secret |}.

(** [params[k]]: the zero value [nil] for a missing key. *)
Definition index (params : gmap string any) (k : string) : any :=
  default nil_any (params !! k).

(** [valueToString]: the test [v == nil], then the type switch, whose
    default case is [fmt.Sprintf("%v", val)]. *)
Definition valueToString (s : Signer) (v : any) : string :=
  match v with
  | nil_any => ""
  | string_any val => val
  | int_any val => Strconv.Itoa val
  | int32_any val => Strconv.FormatInt val
  | int64_any val => Strconv.FormatInt val
  | uint_any val => Strconv.FormatUint val
  | uint32_any val => Strconv.FormatUint val
  | uint64_any val => Strconv.FormatUint val
  | float32_any val => Strconv.FormatFloat_f_shortest val 32
  | float64_any val => Strconv.FormatFloat_f_shortest val 64
  | bool_any val => Strconv.FormatBool val
  | other_any rendering => rendering
  end.

(** [v == nil || v == ""] *)
Definition is_nil_or_empty (v : any) : bool :=
  match v with
  | nil_any => true
  | string_any val => GoString.is_empty val
  | _ => false
  end.

(** The first loop: [for k, v := range params], in the order [iter] in
    which the runtime happens to enumerate the entries. *)
Definition collect_keys (iter : list (string * any)) : list string :=
  fold_left
    (fun keys kv => if is_nil_or_empty (snd kv) then keys
                    else keys ++ [fst kv])
    iter [].

(** The second loop: [for _, k := range keys]. *)
Definition build_pairs (s : Signer) (params : gmap string any)
    (keys : list string) : list string :=
  fold_left
    (fun pairs k =>
       let v := index params k in
       let strValue := valueToString s v in
       if GoString.is_empty strValue then pairs
       else pairs ++ [k +:+ "=" +:+ strValue])
    keys [].

(** The third loop: [for i, pair := range pairs]. *)
Definition join_pairs (pairs : list string) : string :=
  snd (fold_left
         (fun '(i, result) pair =>
            let result := if (0 <? i)%nat then result +:+ "&" else result in
            (S i, result +:+ pair))
         pairs (O, "")).

(** [buildSignatureString]: collect the keys, sort them, build the
    pairs, join them. *)
Definition buildSignatureString (s : Signer) (iter : list (string * any))
    (params : gmap string any) : string :=
  let keys := collect_keys iter in
  let keys := Sort.Strings keys in
  let pairs := build_pairs s params keys in
  join_pairs pairs.

(** [Sign] returns the pair of a signature and an error: the error for
    the nil map, else the MAC of the canonical string under the secret,
    in hexadecimal. *)
Definition Sign (s : Signer) (iter : list (string * any))
    (params : params_t) : string * option error :=
  match params with
  | None => ("", Some "params cannot be nil")
  | Some params =>
      let sigString := buildSignatureString s iter params in
      let h := Hmac.Sum (GoString.bytes (secret s))
                        (GoString.bytes sigString) in
      (Hex.EncodeToString h, None)
  end.

(** [Verify], with what the comparison lets an observer of its running
    time see. *)
Definition Verify_leak (s : Signer) (iter : list (string * any))
    (params : params_t) (signature : string)
  : (bool * option error) * list Subtle.leak :=
  let '(expected, err) := Sign s iter params in
  match err with
  | Some err => ((false, Some err), [])
  | None =>
      let '(eq, tr) := Hmac.Equal_leak (GoString.bytes expected)
                                       (GoString.bytes signature) in
      ((eq, None), tr)
  end.

(** [Verify] returns the pair of a boolean and an error. *)
Definition Verify (s : Signer) (iter : list (string * any))
    (params : params_t) (signature : string) : bool * option error :=
  fst (Verify_leak s iter params signature).

(** [iter] is an order in which [range params] can enumerate the map:
    every entry once. *)
Definition enumerates (iter : list (string * any))
    (params : gmap string any) : Prop :=
  iter ≡ₚ map_to_list params.

(** A map is built by assigning its entries one after the other. *)
Definition make_map (entries : list (string * any)) : gmap string any :=
  fold_left (fun m kv => <[fst kv := snd kv]> m) entries ∅.

End Signature.

(** ** The reference definition of the canonical string *)

Module Reference.
Import Signature.

(** Byte-wise ascending order on strings. *)
Definition le (s1 s2 : string) : Prop := String.leb s1 s2 = true.

#[global] Instance le_dec : RelDecision le.
Proof. intros s1 s2. unfold le. apply _. Defined.

(** Entries are ordered by their keys. *)
Definition key_le (kv1 kv2 : string * any) : Prop := le (fst kv1) (fst kv2).

#[global] Instance key_le_dec : RelDecision key_le.
Proof. intros kv1 kv2. unfold key_le. apply _. Defined.

(** An entry is dropped when its value is nil or the empty text, or when
    its textual form is empty. *)
Definition dropped (s : Signer) (v : any) : bool :=
  match v with
  | nil_any => true
  | string_any "" => true
  | _ => GoString.is_empty (valueToString s v)
  end.

(** An entry that is not dropped. *)
Definition kept (s : Signer) (kv : string * any) : bool :=
  negb (dropped s (snd kv)).

(** [key=value] *)
Definition pair_text (s : Signer) (kv : string * any) : string :=
  fst kv +:+ "=" +:+ valueToString s (snd kv).

(** Filter, sort by key, render each pair, join with [&]. *)
Definition canonical_pairs (s : Signer) (params : gmap string any)
  : list string :=
  map (pair_text s)
    (merge_sort key_le (filter (fun kv => kept s kv = true)
                               (map_to_list params))).

(** The canonical string: the pairs joined with [&], nothing after the
    last one. *)
Definition canonical_string (s : Signer) (params : gmap string any)
  : string :=
  String.concat "&" (canonical_pairs s params).

(** The text the second loop appends for key [k], and the test it makes
    before appending. *)
Definition pair_of (s : Signer) (params : gmap string any) (k : string)
  : string :=
  k +:+ "=" +:+ valueToString s (index params k).

Definition converts (s : Signer) (params : gmap string any) (k : string)
  : Prop :=
  GoString.is_empty (valueToString s (index params k)) = false.

#[global] Instance converts_dec s params k : Decision (converts s params k).
Proof. unfold converts. apply _. Defined.

End Reference.

(** ** The parameter maps of the test suite *)

Module Examples.
Import Signature.

(** ["skip empty and nil"] of [TestSigner_BuildSignatureString]. *)
Definition skip_empty_and_nil : gmap string any :=
  make_map [("a", string_any "1"); ("b", string_any ""); ("c", nil_any);
            ("d", string_any "4")].

(** The map of [TestSigner_SignatureFormat]. *)
Definition signature_format : gmap string any :=
  make_map [("action", string_any "create");
            ("timestamp", string_any "1234567890");
            ("user_id", string_any "12345")].

(** The [float64] constant [78.9]: the float nearest to the decimal. *)
Definition float_78_9 : spec_float :=
  S754_finite false 0x13B9999999999A (-46).

(** ["number conversion"] of [TestSigner_BuildSignatureString]. *)
Definition number_conversion : gmap string any :=
  make_map [("int", int_any 123); ("int64", int64_any 456);
            ("float64", float64_any float_78_9)].

End Examples.

(** ** Predicates on bytes and characters *)

Module Bytes.

(** A byte value. *)
Definition is_byte (b : Z) : Prop := 0 <= b < 256.

(** [(c >= '0' && c <= '9') || (c >= 'a' && c <= 'f')], the test of
    [TestSigner_Sign] on every character of a signature. *)
Definition is_lower_hex (c : ascii) : bool :=
  let n := Z.of_N (N_of_ascii c) in
  ((48 <=? n) && (n <=? 57)) || ((97 <=? n) && (n <=? 102)).

End Bytes.

(** ** Two maps with one canonical string *)

Module Collision.
Import Signature.

(** One entry whose value contains the separators. *)
Definition unescaped : gmap string any :=
  make_map [("a", string_any "1&b=2")].

(** The same text as two entries. *)
Definition split : gmap string any :=
  make_map [("a", string_any "1"); ("b", string_any "2")].

End Collision.

(** ** Reading decimal text back *)

Module Read.

(** The value of a decimal digit. *)
Definition digit_value (c : ascii) : option Z :=
  let n := Z.of_N (N_of_ascii c) in
  if (48 <=? n) && (n <=? 57) then Some (n - 48) else None.

(** The number denoted in base 10 by the digits of [s], continuing from
    [acc]; nothing when a character is not a digit. *)
Fixpoint digits (acc : Z) (s : string) : option Z :=
  match s with
  | EmptyString => Some acc
  | String c s' =>
      match digit_value c with
      | Some d => digits (10 * acc + d) s'
      | None => None
      end
  end.

(** A non-empty sequence of digits without a superfluous leading zero. *)
Definition natural (s : string) : option Z :=
  match s with
  | EmptyString => None
  | String "0" (String _ _) => None
  | _ => digits 0 s
  end.

(** An integer in base 10: an optional minus sign and a natural. *)
Definition integer (s : string) : option Z :=
  match s with
  | String "-" s' => Z.opp <$> natural s'
  | _ => natural s
  end.

End Read.

(** ** Reading positional decimal text back *)

Module ReadFixed.

(** The text before the first point, and the text after that point when
    there is one. *)
Fixpoint split_point (s : string) : string * option string :=
  match s with
  | EmptyString => (EmptyString, None)
  | String c s' =>
      if Ascii.eqb c "." then (EmptyString, Some s')
      else let '(ip, fp) := split_point s' in (String c ip, fp)
  end.

(** A decimal in positional notation, [ddd] or [ddd.ddd]: a natural,
    then possibly a point and at least one digit.  The result [(k, p)]
    stands for [k * 10^p], with as many decimal places as there are digits
    after the point.  Any other character, an exponent among them, is
    refused. *)
Definition unsigned (s : string) : option (Z * Z) :=
  let '(ip, fp) := split_point s in
  match Read.natural ip with
  | None => None
  | Some i =>
      match fp with
      | None => Some (i, 0)
      | Some f =>
          if GoString.is_empty f then None
          else match Read.digits i f with
               | Some k => Some (k, - Z.of_nat (String.length f))
               | None => None
               end
      end
  end.

(** An optional minus sign in front. *)
Definition signed (s : string) : option (bool * (Z * Z)) :=
  match s with
  | String "-" s' => pair true <$> unsigned s'
  | _ => pair false <$> unsigned s
  end.

End ReadFixed.

(** ** The texts of a map *)

Module Texts.
Import Signature.

(** The text of a value, when it is not empty. *)
Definition text_of (s : Signer) (v : any) : option string :=
  let strValue := valueToString s v in
  if GoString.is_empty strValue then None else Some strValue.

(** The keys of a map with the texts of their values, the entries whose
    text is empty left out. *)
Definition texts (s : Signer) (params : gmap string any)
  : gmap string string :=
  omap (text_of s) params.

End Texts.

(** ** Numbers and booleans *)

Module Scalar.
Import Signature.

(** The dynamic type of [v] is one of the numeric cases of the type
    switch of [valueToString], or [bool]. *)
Definition is_number_or_bool (v : any) : bool :=
  match v with
  | int_any _ | int32_any _ | int64_any _
  | uint_any _ | uint32_any _ | uint64_any _
  | float32_any _ | float64_any _ | bool_any _ => true
  | nil_any | string_any _ | other_any _ => false
  end.

End Scalar.

(** ** Secrets as HMAC keys *)

Module Keys.

(** [string(b)] for a byte slice [b]. *)
Fixpoint of_bytes (b : list Z) : string :=
  match b with
  | [] => EmptyString
  | x :: b' => String (ascii_of_N (Z.to_N x)) (of_bytes b')
  end.

(** The text of one zero byte. *)
Definition nul : string := String (ascii_of_N 0) EmptyString.

End Keys.

(** ** Entries without separators *)

Module Plain.
Import Signature.

(** The character [c] occurs in [s]. *)
Fixpoint occurs (c : ascii) (s : string) : bool :=
  match s with
  | EmptyString => false
  | String a s' => Ascii.eqb a c || occurs c s'
  end.

(** An entry that is dropped, or whose key has neither [=] nor [&] and
    whose text has no [&]. *)
Definition plain (s : Signer) (kv : string * any) : bool :=
  Reference.dropped s (snd kv)
  || (negb (occurs "=" (fst kv)) && negb (occurs "&" (fst kv))
      && negb (occurs "&" (valueToString s (snd kv)))).

(** The sorted keys of the texts, each with its text. *)
Definition sorted_texts (s : Signer) (params : gmap string any)
  : list (string * string) :=
  (fun k => (k, default "" (Texts.texts s params !! k)))
  <$> Sort.Strings ((map_to_list (Texts.texts s params)).*1).

End Plain.

(** ** [strconv.ParseUint] and [strconv.ParseInt] for base 10 and 64 bits *)

Module Atoi.

(** The [Err] of a [*NumError]. *)
Inductive NumError := ErrSyntax | ErrRange.

Definition maxUint64 : Z := 2 ^ 64 - 1.

(** [lower(c)]: [c | ('x' - 'X')]. *)
Definition lower (c : Z) : Z := Z.lor c 32.

(** The digit a byte stands for in the loop of [ParseUint]; a letter
    counts from ten. *)
Definition digit (c : Z) : option Z :=
  if (48 <=? c) && (c <=? 57) then Some (c - 48)
  else if (97 <=? lower c) && (lower c <=? 122) then Some (lower c - 97 + 10)
  else None.

(** The loop of [ParseUint] over the bytes of [s], from the value [n]
    read so far: a byte that is no digit of the base is a syntax error; a
    value above [maxVal] is a range error, found before the
    multiplication or by the sum having wrapped around. *)
Fixpoint parse_loop (n : Z) (s : string) : Z * option NumError :=
  match s with
  | EmptyString => (n, None)
  | String c s' =>
      match digit (Z.of_N (N_of_ascii c)) with
      | None => (0, Some ErrSyntax)
      | Some d =>
          if 10 <=? d then (0, Some ErrSyntax)
          else if maxUint64 / 10 + 1 <=? n then (maxUint64, Some ErrRange)
          else
            let n := (n * 10) mod 2 ^ 64 in
            let n1 := (n + d) mod 2 ^ 64 in
            if (n1 <? n) || (maxUint64 <? n1) then (maxUint64, Some ErrRange)
            else parse_loop n1 s'
      end
  end.

(** [strconv.ParseUint(s, 10, 64)] *)
Definition ParseUint (s : string) : Z * option NumError :=
  if GoString.is_empty s then (0, Some ErrSyntax) else parse_loop 0 s.

(** The conversion [int64(un)] of a [uint64], and the negation of an
    [int64]: the value modulo [2^64] in the signed range. *)
Definition int64 (x : Z) : Z := (x + 2 ^ 63) mod 2 ^ 64 - 2 ^ 63.

(** [strconv.ParseInt(s, 10, 64)]: the sign is picked off, the rest is
    read by [ParseUint] and checked against the signed range. *)
Definition ParseInt (s : string) : Z * option NumError :=
  match s with
  | EmptyString => (0, Some ErrSyntax)
  | String c rest =>
      let neg := Ascii.eqb c "-" in
      let s' := if Ascii.eqb c "+" then rest
                else if Ascii.eqb c "-" then rest else s in
      let '(un, err) := ParseUint s' in
      match err with
      | Some ErrSyntax => (0, err)
      | _ =>
          let cutoff := 2 ^ 63 in
          if negb neg && (cutoff <=? un) then (cutoff - 1, Some ErrRange)
          else if neg && (cutoff <? un) then (- cutoff, Some ErrRange)
          else
            let n := int64 un in
            (if neg then int64 (- n) else n, None)
      end
  end.

End Atoi.

(** ** The example program: a request with a timestamp *)

Module ApiExample.
Import Signature.

(** How [apiRequestExample] ends: [log.Fatal(err)], a failed type
    assertion, or one of the three reports of the server side. *)
Inductive outcome :=
| fatal (err : error)
| panicked
| too_old
| accepted
| rejected.

(** [time.Second] and [time.Minute], in nanoseconds. *)
Definition Second : Z := 1000000000.
Definition Minute : Z := 60 * Second.

(** The request, with [now] the seconds [time.Now().Unix()] returned. *)
Definition request (now : Z) : gmap string any :=
  make_map [("api_key", string_any "public-api-key-123");
            ("action", string_any "query");
            ("user_id", int_any 67890);
            ("timestamp", string_any (Strconv.FormatInt now))].

(** The type assertion [v.(string)] on an element of the map. *)
Definition assert_string (v : option any) : option string :=
  match v with
  | Some (string_any val) => Some val
  | _ => None
  end.

(** [apiRequestExample].  The clock is read twice: [now] are the seconds
    of the first reading and [since ts] is what
    [time.Since(time.Unix(ts, 0))] returns at the second one, in
    nanoseconds.  [iter1] and [iter2] are the orders in which [Sign] and
    [Verify] range over the request. *)
Definition apiRequestExample (now : Z) (since : Z → Z)
    (iter1 iter2 : list (string * any)) : outcome :=
  let signer := NewSigner "api-secret-key" in
  let params := request now in
  let '(sig, err) := Sign signer iter1 (Some params) in
  match err with
  | Some err => fatal err
  | None =>
      match assert_string (params !! "timestamp") with
      | None => panicked
      | Some text =>
          let '(ts, _) := Atoi.ParseInt text in
          let age := since ts in
          if 5 * Minute <? age then too_old
          else
            let '(valid, err) := Verify signer iter2 (Some params) sig in
            match err with
            | Some err => fatal err
            | None => if valid then accepted else rejected
            end
      end
  end.

End ApiExample.

(** ** The ranges of the integer types *)

Module Ranges.
Import Signature.

(** The value of [v] is one its dynamic type has; [int] and [uint] are
    64 bits wide. *)
Definition in_range (v : any) : bool :=
  match v with
  | int_any i | int64_any i => (- 2 ^ 63 <=? i) && (i <? 2 ^ 63)
  | int32_any i => (- 2 ^ 31 <=? i) && (i <? 2 ^ 31)
  | uint_any u | uint64_any u => (0 <=? u) && (u <? 2 ^ 64)
  | uint32_any u => (0 <=? u) && (u <? 2 ^ 32)
  | _ => true
  end.

End Ranges.

(** ** The encodings of the float types *)

Module Encoding.
Import Signature.


(** A [float32] has a mantissa of 24 bits and a [float64] one of 53; a
    finite value [m * 2^e] is held with the largest mantissa its format
    has room for, down to the smallest exponent: [m] and [e] are the
    encoding of the value, the one [math.Float32bits] and
    [math.Float64bits] decode to. *)
Definition valid (v : any) : bool :=
  match v with
  | float32_any x => valid_binary 24 128 x
  | float64_any x => valid_binary 53 1024 x
  | _ => true
  end.

End Encoding.

(** * Properties *)

(** ** Known answers of the library models *)

Example FormatInt_123 : Strconv.FormatInt 123 = "123".
Proof. reflexivity. Qed.

Example FormatInt_neg : Strconv.FormatInt (-9223372036854775808) = "-9223372036854775808".
Proof. reflexivity. Qed.

Example FormatUint_max : Strconv.FormatUint 18446744073709551615 = "18446744073709551615".
Proof. reflexivity. Qed.

Example Strings_sorts : Sort.Strings ["zebra"; "apple"; "mango"; ""; "Zed"] = [""; "Zed"; "apple"; "mango"; "zebra"].
Proof. reflexivity. Qed.

Example _K_ends :
  head Sha256._K = Some 0x428a2f98 /\ last Sha256._K = Some 0xc67178f2
  /\ length Sha256._K = 64%nat.
Proof. vm_compute. repeat split; reflexivity. Qed.

Example sha256_empty :
  hex_of "" = "e3b0c44298fc1c149afbf4c8996fb92427ae41e4649b934ca495991b7852b855".
Proof. vm_compute. reflexivity. Qed.

Example sha256_abc :
  hex_of "abc" = "ba7816bf8f01cfea414140de5dae2223b00361a396177a9cb410ff61f20015ad".
Proof. vm_compute. reflexivity. Qed.

Example sha256_two_blocks :
  hex_of "abcdbcdecdefdefgefghfghighijhijkijkljklmklmnlmnomnopnopq"
  = "248d6a61d20638b8e5c026930c3e6039a33ce45964ff2167f6ecedd419db06c1".
Proof. vm_compute. reflexivity. Qed.

Example hmac_rfc4231_case2 :
  hmac_hex "Jefe" "what do ya want for nothing?"
  = "5bdcc146bf60754e6a042426089575c75a003f089d2739839dec58b964ec3843".
Proof. vm_compute. reflexivity. Qed.

Example hmac_rfc4231_case6 :
  Hex.EncodeToString
    (Hmac.Sum (replicate 131 0xaa)
       (GoString.bytes
          "Test Using Larger Than Block-Size Key - Hash Key First"))
  = "60e431591ee0b67f0d8a26aacbf5b77f8e0bc6213728c5140546040f0ee37f54".
Proof. vm_compute. reflexivity. Qed.

(** The signatures of the map of [TestSigner_SignatureFormat], of the
    empty map and of the map of [TestSigner_Verify], and the checks of
    that test. *)
Example Sign_known_answers :
  let params := Signature.make_map [("action", Signature.string_any "test");
                                    ("value", Signature.int_any 123)] in
  let modified := Signature.make_map [("action", Signature.string_any "test");
                                      ("value", Signature.int_any 456)] in
  let signer := Signature.NewSigner "test-secret" in
  let sig :=
    "f289b136cea837b1d00dc122d4e9b23503d71b002a254619e963f48cd8beca80" in
  Signature.Sign (Signature.NewSigner "my-secret-key")
    (map_to_list Examples.signature_format) (Some Examples.signature_format)
  = ("18ab9a231895393f135ffcd903e57c19b9499adadf1892ebf9b19c810b7a8053",
     None)
  /\ Signature.Sign (Signature.NewSigner "my-secret-key") [] (Some ∅)
     = ("3f88a772c79764707652942745bb0a16a25f2a113acfeaea1e07ae04f8d90ac6",
        None)
  /\ Signature.Sign signer (map_to_list params) (Some params) = (sig, None)
  /\ Signature.Verify signer (map_to_list params) (Some params) sig
     = (true, None)
  /\ Signature.Verify signer (map_to_list params) (Some params)
       "invalid-signature" = (false, None)
  /\ Signature.Verify signer (map_to_list modified) (Some modified) sig
     = (false, None).
Proof. vm_compute. repeat split; reflexivity. Qed.

(** The table of [TestSigner_ValueToString]; the constants [12.34] are
    the nearest [float32] and [float64]. *)
Example valueToString_table :
  let s := Signature.NewSigner "test" in
  map (Signature.valueToString s)
    [Signature.string_any "test"; Signature.int_any 123;
     Signature.int32_any 123; Signature.int64_any 123;
     Signature.uint_any 123; Signature.uint32_any 123;
     Signature.uint64_any 123;
     Signature.float32_any (S754_finite false 0xc570a4 (-20));
     Signature.float64_any (S754_finite false 0x18ae147ae147ae (-49));
     Signature.bool_any true; Signature.bool_any false; Signature.nil_any]
  = ["test"; "123"; "123"; "123"; "123"; "123"; "123"; "12.34"; "12.34";
     "true"; "false"; ""]
  /\ Strconv.reads_back Strconv.float32info 0xc570a4 (-20) 1234 (-2) = true
  /\ Strconv.reads_back Strconv.float64info 0x18ae147ae147ae (-49) 1234 (-2)
     = true.
Proof. vm_compute. repeat split; reflexivity. Qed.

(** The table of [TestSigner_BuildSignatureString], each map enumerated
    in the order of [map_to_list]. *)
Example buildSignatureString_table :
  let s := Signature.NewSigner "test" in
  map (fun entries =>
         Signature.buildSignatureString s
           (map_to_list (Signature.make_map entries))
           (Signature.make_map entries))
    [[("c", Signature.string_any "3"); ("a", Signature.string_any "1");
      ("b", Signature.string_any "2")];
     [("a", Signature.string_any "1"); ("b", Signature.string_any "");
      ("c", Signature.nil_any); ("d", Signature.string_any "4")];
     [("int", Signature.int_any 123); ("int64", Signature.int64_any 456);
      ("float64", Signature.float64_any Examples.float_78_9)];
     [("msg", Signature.string_any "hello world!");
      ("path", Signature.string_any "/api/v1")]]
  = ["a=1&b=2&c=3"; "a=1&d=4"; "float64=78.9&int=123&int64=456";
     "msg=hello world!&path=/api/v1"].
Proof. vm_compute. reflexivity. Qed.

Example float64_78_9 :
  Strconv.reads_back Strconv.float64info 0x13B9999999999A (-46) 789 (-1) = true
  /\ Strconv.FormatFloat_f_shortest (S754_finite false 0x13B9999999999A (-46)) 64 = "78.9".
Proof. vm_compute. split; reflexivity. Qed.

(** ** The byte-wise order on strings *)

Section string_order.

Lemma ascii_compare_N (a b : ascii) :
  Ascii.compare a b = (N_of_ascii a ?= N_of_ascii b)%N.
Proof. reflexivity. Qed.

Lemma ascii_compare_refl (a : ascii) : Ascii.compare a a = Eq.
Proof. rewrite ascii_compare_N. apply N.compare_refl. Qed.

Lemma string_compare_refl (s : string) : String.compare s s = Eq.
Proof.
  induction s as [|a s IH]; simpl; [done|].
  by rewrite ascii_compare_refl.
Qed.

Lemma string_compare_lt_trans (s1 s2 s3 : string) :
  String.compare s1 s2 = Lt → String.compare s2 s3 = Lt →
  String.compare s1 s3 = Lt.
Proof.
  revert s2 s3.
  induction s1 as [|a s1 IH]; intros [|b s2] [|c s3]; simpl; try done.
  rewrite !ascii_compare_N.
  destruct (N.compare_spec (N_of_ascii a) (N_of_ascii b)) as [Hab|Hab|Hab];
    destruct (N.compare_spec (N_of_ascii b) (N_of_ascii c)) as [Hbc|Hbc|Hbc];
    try done; intros H1 H2.
  - rewrite Hab, Hbc, N.compare_refl. eauto.
  - rewrite Hab. by apply N.compare_lt_iff in Hbc as ->.
  - rewrite <- Hbc. by apply N.compare_lt_iff in Hab as ->.
  - assert (N_of_ascii a < N_of_ascii c)%N as Hac by lia.
    by apply N.compare_lt_iff in Hac as ->.
Qed.

Lemma leb_iff (s1 s2 : string) :
  String.leb s1 s2 = true ↔ String.compare s1 s2 = Lt ∨ s1 = s2.
Proof.
  unfold String.leb.
  destruct (String.compare s1 s2) eqn:E; split; try done; eauto.
  - intros _. right. by apply String.compare_eq_iff.
  - intros [?| ->]; [done|]. by rewrite string_compare_refl in E.
Qed.

Lemma ltb_iff (s1 s2 : string) :
  String.ltb s1 s2 = true ↔ String.compare s1 s2 = Lt.
Proof. unfold String.ltb. by destruct (String.compare s1 s2). Qed.

(** [k < x] is the negation of [x <= k]. *)
Lemma lt_not_le (k x : string) : GoString.lt k x = negb (String.leb x k).
Proof.
  unfold GoString.lt, String.ltb, String.leb.
  rewrite (String.compare_antisym k x).
  by destruct (String.compare x k).
Qed.

#[global] Instance string_le_refl : Reflexive Reference.le.
Proof. intros s. apply leb_iff. by right. Qed.

#[global] Instance string_le_trans : Transitive Reference.le.
Proof.
  intros s1 s2 s3. unfold Reference.le. rewrite !leb_iff.
  intros [H1| ->] [H2| ->]; eauto using string_compare_lt_trans.
Qed.

#[global] Instance string_le_antisym : AntiSymm (=) Reference.le.
Proof. intros s1 s2 H1 H2. by apply String.leb_antisym. Qed.

#[global] Instance string_le_total : Total Reference.le.
Proof. intros s1 s2. apply String.leb_total. Qed.

#[global] Instance key_le_trans : Transitive Reference.key_le.
Proof. intros x y z. unfold Reference.key_le. apply string_le_trans. Qed.

#[global] Instance key_le_total : Total Reference.key_le.
Proof. intros x y. unfold Reference.key_le. apply string_le_total. Qed.

End string_order.

(** ** [sort.Strings] returns the sorted permutation *)

Section sort_strings.

Lemma insert_Permutation (k : string) (l : list string) :
  Sort.insert k l ≡ₚ k :: l.
Proof.
  induction l as [|x l IH]; simpl; [done|].
  destruct (GoString.lt k x); [done|].
  rewrite IH. apply Permutation_swap.
Qed.

Lemma insert_HdRel (a k : string) (l : list string) :
  Reference.le a k → HdRel Reference.le a l →
  HdRel Reference.le a (Sort.insert k l).
Proof.
  intros Hak Hl. destruct l as [|x l]; simpl; [by constructor|].
  destruct (GoString.lt k x); constructor; [done|].
  by inversion Hl.
Qed.

Lemma insert_Sorted (k : string) (l : list string) :
  Sorted Reference.le l → Sorted Reference.le (Sort.insert k l).
Proof.
  induction 1 as [|x l Hl IH Hx]; simpl; [by repeat constructor|].
  destruct (GoString.lt k x) eqn:E.
  - constructor; [by constructor|]. constructor.
    apply leb_iff. left. by apply ltb_iff.
  - rewrite lt_not_le in E. apply negb_false_iff in E.
    constructor; [done|]. by apply insert_HdRel.
Qed.

Lemma Strings_fold (l acc : list string) :
  Sorted Reference.le acc →
  Sorted Reference.le (fold_left (fun acc k => Sort.insert k acc) l acc)
  ∧ fold_left (fun acc k => Sort.insert k acc) l acc ≡ₚ l ++ acc.
Proof.
  revert acc. induction l as [|k l IH]; intros acc Hacc; simpl; [done|].
  destruct (IH (Sort.insert k acc)) as [H1 H2]; [by apply insert_Sorted|].
  split; [done|].
  rewrite H2, insert_Permutation. by rewrite Permutation_middle.
Qed.

Lemma Strings_Sorted (l : list string) :
  Sorted Reference.le (Sort.Strings l).
Proof. apply Strings_fold. constructor. Qed.

Lemma Strings_Permutation (l : list string) : Sort.Strings l ≡ₚ l.
Proof.
  unfold Sort.Strings.
  destruct (Strings_fold l []) as [_ H]; [constructor|].
  by rewrite H, app_nil_r.
Qed.

(** Whatever sorting algorithm the library runs, its result is this
    one: a sorted list of strings is determined by its elements. *)
Lemma Strings_unique (l l' : list string) :
  Sorted Reference.le l' → l' ≡ₚ l → l' = Sort.Strings l.
Proof.
  intros Hs Hp. apply (Sorted_unique Reference.le); [done| |].
  - apply Strings_Sorted.
  - by rewrite Strings_Permutation.
Qed.

Lemma Strings_of_Permutation (l l' : list string) :
  l ≡ₚ l' → Sort.Strings l = Sort.Strings l'.
Proof.
  intros Hp. apply Strings_unique; [apply Strings_Sorted|].
  by rewrite Strings_Permutation.
Qed.

End sort_strings.

(** ** The three loops of [buildSignatureString] *)

Section loops.
Import Signature Reference.

Lemma app_String (a : ascii) (s t : string) :
  String a s +:+ t = String a (s +:+ t).
Proof. reflexivity. Qed.

Lemma string_app_empty_r (s : string) : s +:+ "" = s.
Proof. induction s as [|a s IH]; [done|]. by rewrite app_String, IH. Qed.

Lemma app_assoc_string (s t u : string) : (s +:+ t) +:+ u = s +:+ t +:+ u.
Proof. induction s as [|a s IH]; [done|]. by rewrite !app_String, IH. Qed.

Lemma is_empty_true (s : string) : GoString.is_empty s = true ↔ s = "".
Proof. by destruct s. Qed.

(** The keys the first loop keeps, in the order of the enumeration. *)
Lemma collect_keys_filter (iter : list (string * any)) :
  collect_keys iter
  = (filter (fun kv => is_nil_or_empty (snd kv) = false) iter).*1.
Proof.
  unfold collect_keys.
  enough (∀ acc,
    fold_left (fun keys kv => if is_nil_or_empty (snd kv) then keys
                              else keys ++ [fst kv]) iter acc
    = acc ++ (filter (fun kv => is_nil_or_empty (snd kv) = false) iter).*1)
    as H by apply (H []).
  induction iter as [|[k v] iter IH]; intros acc; simpl.
  { by rewrite app_nil_r. }
  rewrite IH, filter_cons. simpl.
  destruct (is_nil_or_empty v) eqn:E.
  - by rewrite decide_False.
  - rewrite decide_True by done. by rewrite <- app_assoc.
Qed.

Lemma build_pairs_filter s params (keys : list string) :
  build_pairs s params keys
  = pair_of s params <$> filter (converts s params) keys.
Proof.
  unfold build_pairs.
  enough (∀ acc,
    fold_left (fun pairs k =>
       let v := index params k in
       let strValue := valueToString s v in
       if GoString.is_empty strValue then pairs
       else pairs ++ [k +:+ "=" +:+ strValue]) keys acc
    = acc ++ (pair_of s params <$> filter (converts s params) keys))
    as H by apply (H []).
  induction keys as [|k keys IH]; intros acc; simpl.
  { by rewrite app_nil_r. }
  rewrite IH.
  destruct (GoString.is_empty (valueToString s (index params k))) eqn:E.
  - rewrite filter_cons_False; [done|]. unfold converts. by rewrite E.
  - rewrite filter_cons_True by done. simpl. by rewrite <- app_assoc.
Qed.

Lemma join_pairs_fold (pairs : list string) (i : nat) (result : string) :
  snd (fold_left
         (fun '(i, result) pair =>
            let result := if (0 <? i)%nat then result +:+ "&" else result in
            (S i, result +:+ pair))
         pairs (S i, result))
  = result +:+ String.concat "" ((fun p => "&" +:+ p) <$> pairs).
Proof.
  revert i result. induction pairs as [|p pairs IH]; intros i result.
  { simpl. by rewrite string_app_empty_r. }
  cbn [fold_left fmap list_fmap]. change (0 <? S i)%nat with true.
  cbv iota. rewrite IH, !app_assoc_string. f_equal. f_equal.
  destruct pairs as [|q pairs]; [by rewrite string_app_empty_r|]. done.
Qed.

Lemma concat_amp (p : string) (pairs : list string) :
  String.concat "&" (p :: pairs)
  = p +:+ String.concat "" ((fun p => "&" +:+ p) <$> pairs).
Proof.
  revert p. induction pairs as [|q pairs IH]; intros p.
  { simpl. by rewrite string_app_empty_r. }
  change (String.concat "&" (p :: q :: pairs))
    with (p +:+ "&" +:+ String.concat "&" (q :: pairs)).
  rewrite IH. f_equal.
  destruct pairs as [|r pairs]; simpl.
  - by rewrite !string_app_empty_r.
  - by rewrite app_assoc_string.
Qed.

(** The third loop joins the pairs with [&]. *)
Lemma join_pairs_concat (pairs : list string) :
  join_pairs pairs = String.concat "&" pairs.
Proof.
  destruct pairs as [|p pairs]; [done|].
  unfold join_pairs. cbn [fold_left]. change (0 <? 0)%nat with false.
  cbv iota. change ("" +:+ p) with p.
  by rewrite join_pairs_fold, concat_amp.
Qed.

End loops.

(** ** The canonical string *)

Section canonical.
Import Signature Reference.

Lemma StronglySorted_filter {A} (R : relation A) (P : A → Prop)
    `{!∀ x, Decision (P x)} (l : list A) :
  StronglySorted R l → StronglySorted R (filter P l).
Proof.
  induction 1 as [|x l Hl IH Hx]; [constructor|].
  rewrite filter_cons. destruct (decide (P x)); [|done].
  constructor; [done|].
  apply Forall_forall. intros y [_ Hy]%list_elem_of_filter.
  by apply (proj1 (Forall_forall _ _) Hx).
Qed.

Lemma filter_fmap_fst {A B} (P : A → Prop) `{!∀ x, Decision (P x)}
    (l : list (A * B)) :
  filter P (l.*1) = (filter (fun kv => P (fst kv)) l).*1.
Proof.
  induction l as [|kv l IH]; [done|].
  rewrite fmap_cons, !filter_cons, IH.
  by destruct (decide (P (fst kv))).
Qed.

Lemma filter_ext_elem_of {A} (P Q : A → Prop) `{!∀ x, Decision (P x)}
    `{!∀ x, Decision (Q x)} (l : list A) :
  (∀ x, x ∈ l → P x ↔ Q x) → filter P l = filter Q l.
Proof.
  induction l as [|x l IH]; intros Hl; [done|].
  rewrite !filter_cons, IH by (intros; apply Hl; by right).
  assert (P x ↔ Q x) as Hx by (apply Hl; by left).
  destruct (decide (P x)), (decide (Q x)); tauto.
Qed.

Lemma index_enumerated (params : gmap string any) k v :
  (k, v) ∈ map_to_list params → index params k = v.
Proof. intros H%elem_of_map_to_list. unfold index. by rewrite H. Qed.

Lemma dropped_split s v :
  dropped s v
  = is_nil_or_empty v || GoString.is_empty (valueToString s v).
Proof. destruct v as [|[|??]| | | | | | | | | |]; try done. Qed.

(** The keys that survive both tests of the code are the keys of the
    entries the reference keeps. *)
Lemma surviving_keys s iter params :
  enumerates iter params →
  filter (converts s params) (collect_keys iter)
  ≡ₚ (filter (fun kv => kept s kv = true) (map_to_list params)).*1.
Proof.
  intros Hiter. rewrite collect_keys_filter, filter_fmap_fst.
  rewrite list_filter_filter, Hiter. apply reflexive_eq. f_equal.
  apply filter_ext_elem_of. intros [k v] Hkv. simpl.
  unfold converts, kept. rewrite (index_enumerated _ _ _ Hkv). simpl.
  rewrite dropped_split.
  destruct (is_nil_or_empty v), (GoString.is_empty _); simpl; intuition.
Qed.

Lemma sorted_surviving_keys s iter params :
  enumerates iter params →
  filter (converts s params) (Sort.Strings (collect_keys iter))
  = (merge_sort key_le
       (filter (fun kv => kept s kv = true) (map_to_list params))).*1.
Proof.
  intros Hiter. apply (Sorted_unique le).
  - apply StronglySorted_Sorted, StronglySorted_filter.
    apply Sorted_StronglySorted; [apply _|]. apply Strings_Sorted.
  - apply Sorted_fmap with (R1 := key_le); [done|].
    apply (Sorted_merge_sort key_le).
  - rewrite Strings_Permutation, (surviving_keys _ _ _ Hiter).
    by rewrite merge_sort_Permutation.
Qed.

Lemma buildSignatureString_reference s iter params :
  enumerates iter params →
  buildSignatureString s iter params = canonical_string s params.
Proof.
  intros Hiter.
  unfold buildSignatureString, canonical_string, canonical_pairs.
  rewrite join_pairs_concat, build_pairs_filter.
  rewrite (sorted_surviving_keys _ _ _ Hiter). f_equal.
  rewrite <- list_fmap_compose. apply list_fmap_ext.
  intros i [k v] Hi. simpl. unfold pair_of, pair_text. simpl.
  rewrite (index_enumerated params k v); [done|].
  apply list_elem_of_lookup_2 in Hi.
  rewrite merge_sort_Permutation in Hi.
  by apply list_elem_of_filter in Hi as [_ ?].
Qed.

(** The canonical string does not depend on the order of the
    enumeration. *)
Lemma buildSignatureString_enumeration s iter iter' params :
  enumerates iter params → enumerates iter' params →
  buildSignatureString s iter params = buildSignatureString s iter' params.
Proof.
  intros H H'. by rewrite !buildSignatureString_reference.
Qed.

End canonical.

(** ** Bytes, digests and their hexadecimal encoding *)

Section bytes.
Import Bytes.

Lemma bytes_is_byte (s : string) : Forall is_byte (GoString.bytes s).
Proof.
  induction s as [|a s IH]; simpl; constructor; [|done].
  unfold is_byte. pose proof (N_ascii_bounded a). lia.
Qed.

Lemma bytes_length (s : string) :
  length (GoString.bytes s) = String.length s.
Proof. induction s as [|a s IH]; simpl; [done|]. by rewrite IH. Qed.

Lemma bytes_inj (s1 s2 : string) :
  GoString.bytes s1 = GoString.bytes s2 → s1 = s2.
Proof.
  revert s2. induction s1 as [|a s1 IH]; intros [|b s2]; simpl; try done.
  intros [= Hab Hs]. f_equal; [|by apply IH].
  apply N2Z.inj in Hab.
  by rewrite <- (ascii_N_embedding a), <- (ascii_N_embedding b), Hab.
Qed.

Lemma be_bytes_length (n : nat) (x : Z) :
  length (Sha256.be_bytes n x) = n.
Proof. induction n as [|n IH]; simpl; [done|]. by rewrite IH. Qed.

Lemma be_bytes_is_byte (n : nat) (x : Z) :
  Forall is_byte (Sha256.be_bytes n x).
Proof.
  induction n as [|n IH]; simpl; constructor; [|done].
  unfold is_byte. change 255 with (Z.ones 8).
  rewrite Z.land_ones by lia. apply Z.mod_pos_bound. lia.
Qed.

Lemma Sum256_length (data : list Z) :
  length (Sha256.Sum256 data) = Sha256.Size.
Proof.
  unfold Sha256.Sum256, Sha256.digest_bytes.
  by rewrite !length_app, !be_bytes_length.
Qed.

Lemma Sum256_is_byte (data : list Z) : Forall is_byte (Sha256.Sum256 data).
Proof.
  unfold Sha256.Sum256, Sha256.digest_bytes.
  rewrite !Forall_app. repeat split; apply be_bytes_is_byte.
Qed.

(** A MAC tag is 32 bytes long. *)
Lemma Hmac_Sum_length (key msg : list Z) :
  length (Hmac.Sum key msg) = 32%nat.
Proof. apply Sum256_length. Qed.

Lemma Hmac_Sum_is_byte (key msg : list Z) :
  Forall is_byte (Hmac.Sum key msg).
Proof. apply Sum256_is_byte. Qed.

Lemma EncodeToString_length (src : list Z) :
  String.length (Hex.EncodeToString src) = (2 * length src)%nat.
Proof. induction src as [|v src IH]; simpl; [done|]. rewrite IH. lia. Qed.

Lemma hexdigit_lower_hex (v : Z) :
  0 <= v < 16 → is_lower_hex (Hex.hexdigit v) = true.
Proof.
  intros Hv.
  assert (Z.to_nat v < 16)%nat as Hn by lia.
  unfold Hex.hexdigit. generalize dependent (Z.to_nat v). clear Hv.
  intros k Hk. do 16 (destruct k as [|k]; [reflexivity|]). lia.
Qed.

Lemma EncodeToString_lower_hex (src : list Z) :
  Forall is_byte src →
  Forall (fun c => is_lower_hex c = true)
         (GoString.chars (Hex.EncodeToString src)).
Proof.
  induction 1 as [|v src Hv Hsrc IH]; simpl; [constructor|].
  unfold is_byte in Hv.
  constructor; [|constructor; [|done]]; apply hexdigit_lower_hex.
  - rewrite Z.shiftr_div_pow2 by lia. change (2 ^ 4) with 16.
    split; [apply Z.div_pos; lia|apply Z.div_lt_upper_bound; lia].
  - change 15 with (Z.ones 4). rewrite Z.land_ones by lia.
    apply Z.mod_pos_bound. lia.
Qed.

End bytes.

(** ** The comparison of [hmac.Equal] *)

Section constant_time.
Import Bytes.

Lemma lor_lxor_is_byte (v a b : Z) :
  is_byte v → is_byte a → is_byte b → is_byte (Z.lor v (Z.lxor a b)).
Proof.
  unfold is_byte. intros Hv Ha Hb.
  assert (∀ x, 0 <= x → (x < 256 ↔ ∀ n, 8 <= n → Z.testbit x n = false))
    as Hbits.
  { intros x Hx. split.
    - intros Hlt n Hn. apply Z.bits_above_log2; [done|].
      destruct (decide (x = 0)) as [->|]; [simpl; lia|].
      assert (Z.log2 x < 8); [|lia]. apply Z.log2_lt_pow2; lia.
    - intros Hn. destruct (decide (x < 256)) as [|Hge]; [done|].
      assert (8 <= Z.log2 x) as Hlog.
      { apply Z.log2_le_pow2; lia. }
      specialize (Hn (Z.log2 x) Hlog).
      rewrite Z.bit_log2 in Hn by lia. done. }
  assert (0 <= Z.lor v (Z.lxor a b)) as Hnn.
  { apply Z.lor_nonneg. split; [lia|]. apply Z.lxor_nonneg. lia. }
  split; [done|]. apply Hbits; [done|]. intros n Hn.
  rewrite Z.lor_spec, Z.lxor_spec.
  rewrite (proj1 (Hbits v ltac:(lia))), (proj1 (Hbits a ltac:(lia))),
    (proj1 (Hbits b ltac:(lia))) by lia.
  done.
Qed.

Lemma lor_lxor_zero (v a b : Z) :
  Z.lor v (Z.lxor a b) = 0 ↔ v = 0 ∧ a = b.
Proof.
  rewrite Z.lor_eq_0_iff. split.
  - intros [-> H]. split; [done|]. by apply Z.lxor_eq.
  - intros [-> ->]. by rewrite Z.lxor_nilpotent.
Qed.

(** The accumulator of the loop is zero at the end exactly when it was
    zero at the start and the slices are equal. *)
Lemma compare_loop_result (x y : list Z) (i : nat) (v : Z) tr :
  length x = length y → is_byte v → Forall is_byte x → Forall is_byte y →
  is_byte (fst (Subtle.compare_loop i x y v tr))
  ∧ (fst (Subtle.compare_loop i x y v tr) = 0 ↔ v = 0 ∧ x = y).
Proof.
  revert y i v tr.
  induction x as [|a x IH]; intros [|b y] i v tr Hlen Hv Hx Hy;
    simplify_eq/=.
  { intuition. }
  inversion_clear Hx. inversion_clear Hy.
  destruct (IH y (S i) (Z.lor v (Z.lxor a b))
              (tr ++ [Subtle.LBranch true; Subtle.LIndex i; Subtle.LIndex i]))
    as [Hr Hz]; auto using lor_lxor_is_byte.
  split; [done|]. rewrite Hz, lor_lxor_zero. intuition congruence.
Qed.

Lemma ConstantTimeByteEq_zero (v : Z) :
  is_byte v → Subtle.ConstantTimeByteEq v 0 = 1 ↔ v = 0.
Proof.
  unfold is_byte, Subtle.ConstantTimeByteEq. intros Hv.
  rewrite Z.lxor_0_r, Z.shiftr_div_pow2 by lia.
  destruct (decide (v = 0)) as [->|Hne]; [done|].
  rewrite Z.mod_small by lia. rewrite Z.div_small by lia.
  split; [discriminate|done].
Qed.

(** On byte slices [hmac.Equal] decides equality. *)
Lemma Equal_true_iff (x y : list Z) :
  Forall is_byte x → Forall is_byte y →
  Hmac.Equal x y = true ↔ x = y.
Proof.
  intros Hx Hy.
  unfold Hmac.Equal, Hmac.Equal_leak, Subtle.ConstantTimeCompare_leak.
  destruct (length x =? length y)%nat eqn:Hlen; simpl.
  - apply Nat.eqb_eq in Hlen.
    destruct (compare_loop_result x y 0 0 [Subtle.LBranch false])
      as [Hr Hz]; [done|unfold is_byte; lia|done|done|].
    destruct (Subtle.compare_loop 0 x y 0 [Subtle.LBranch false])
      as [v tr]. cbn [fst snd] in *.
    rewrite Z.eqb_eq, ConstantTimeByteEq_zero by done. intuition.
  - apply Nat.eqb_neq in Hlen. split; [done|]. by intros ->.
Qed.

End constant_time.

(** ** [Sign] and [Verify] *)

Section sign_verify.
Import Signature Bytes.

Lemma Sign_Some s iter params :
  Sign s iter (Some params)
  = (Hex.EncodeToString
       (Hmac.Sum (GoString.bytes (secret s))
          (GoString.bytes (buildSignatureString s iter params))), None).
Proof. reflexivity. Qed.

Lemma Sign_enumeration s iter iter' params :
  enumerates iter params → enumerates iter' params →
  Sign s iter (Some params) = Sign s iter' (Some params).
Proof.
  intros H H'. rewrite !Sign_Some.
  by rewrite (buildSignatureString_enumeration s iter iter' params).
Qed.

Lemma Sign_length s iter params :
  String.length (fst (Sign s iter (Some params))) = 64%nat.
Proof.
  rewrite Sign_Some. cbn [fst].
  by rewrite EncodeToString_length, Hmac_Sum_length.
Qed.

Lemma Sign_lower_hex s iter params :
  Forall (fun c => is_lower_hex c = true)
         (GoString.chars (fst (Sign s iter (Some params)))).
Proof.
  rewrite Sign_Some. cbn [fst].
  apply EncodeToString_lower_hex, Hmac_Sum_is_byte.
Qed.

(** On a non-nil map [Verify] answers whether the supplied signature is
    the expected one, and never fails. *)
Lemma Verify_Some s iter params signature :
  Verify s iter (Some params) signature
  = (bool_decide (fst (Sign s iter (Some params)) = signature), None).
Proof.
  unfold Verify, Verify_leak. rewrite Sign_Some. cbn [fst].
  set (expected := Hex.EncodeToString _).
  pose proof (Equal_true_iff (GoString.bytes expected)
                (GoString.bytes signature)
                (bytes_is_byte _) (bytes_is_byte _)) as Heq.
  unfold Hmac.Equal in Heq.
  destruct (Hmac.Equal_leak _ _) as [eq tr]. cbn [fst] in *.
  f_equal. destruct eq.
  - symmetry. apply bool_decide_eq_true.
    apply bytes_inj. by apply Heq.
  - symmetry. apply bool_decide_eq_false. intros Hx.
    assert (false = true) as Hft by (apply Heq; by rewrite Hx).
    discriminate Hft.
Qed.

Lemma Verify_None s iter signature :
  Verify s iter None signature = (false, Some "params cannot be nil").
Proof. reflexivity. Qed.

Lemma get_set_char (i : nat) (c : ascii) (s : string) :
  (i < String.length s)%nat →
  String.get i (GoString.set_char i c s) = Some c.
Proof.
  revert i. induction s as [|a s IH]; intros [|i] Hi; simpl in *;
    try lia; [done|].
  apply IH. lia.
Qed.

Lemma set_char_neq (i : nat) (c : ascii) (s : string) :
  (i < String.length s)%nat → String.get i s ≠ Some c →
  GoString.set_char i c s ≠ s.
Proof.
  intros Hi Hc Heq. apply Hc. rewrite <- Heq at 1.
  by apply get_set_char.
Qed.

End sign_verify.

(** ** Maps built entry by entry *)

Section make_map.
Import Signature.

Lemma make_map_list_to_map (entries : list (string * any)) :
  make_map entries = list_to_map (reverse entries).
Proof.
  unfold make_map.
  enough (∀ m : gmap string any,
    fold_left (fun m kv => <[fst kv := snd kv]> m) entries m
    = foldr (fun kv m => <[fst kv := snd kv]> m) m (reverse entries))
    as H by apply H.
  induction entries as [|kv entries IH]; intros m; simpl; [done|].
  by rewrite IH, reverse_cons, foldr_app.
Qed.

(** With distinct keys, the order of the assignments does not matter. *)
Lemma make_map_Permutation (entries1 entries2 : list (string * any)) :
  NoDup (entries1.*1) → entries1 ≡ₚ entries2 →
  make_map entries1 = make_map entries2.
Proof.
  intros Hnd Hp. rewrite !make_map_list_to_map.
  apply list_to_map_proper.
  - by rewrite fmap_reverse, reverse_Permutation.
  - by rewrite !reverse_Permutation.
Qed.

End make_map.

(** ** The pairs of the canonical string, key by key *)

Section pairs.
Import Signature Reference.

Lemma sorted_keys_Sorted s (params : gmap string any) :
  Sorted le
    ((merge_sort key_le
        (filter (fun kv => kept s kv = true) (map_to_list params))).*1).
Proof.
  apply Sorted_fmap with (R1 := key_le); [done|].
  apply (Sorted_merge_sort key_le).
Qed.

Lemma canonical_pairs_keys s (params : gmap string any) :
  canonical_pairs s params
  = pair_of s params
    <$> (merge_sort key_le
           (filter (fun kv => kept s kv = true) (map_to_list params))).*1.
Proof.
  unfold canonical_pairs.
  rewrite <- list_fmap_compose. apply list_fmap_ext.
  intros i [k v] Hi. simpl. unfold pair_of, pair_text. simpl.
  rewrite (index_enumerated params k v); [done|].
  apply list_elem_of_lookup_2 in Hi.
  rewrite merge_sort_Permutation in Hi.
  by apply list_elem_of_filter in Hi as [_ ?].
Qed.

Lemma string_le_empty (k : string) : le "" k.
Proof. by destruct k. Qed.

(** The empty key is the least one: when its entry is kept, it is the
    first of the sorted keys. *)
Lemma sorted_keys_empty_key s (params : gmap string any) v :
  params !! "" = Some v → dropped s v = false →
  (merge_sort key_le
     (filter (fun kv => kept s kv = true) (map_to_list params))).*1
  = "" :: (merge_sort key_le
             (filter (fun kv => kept s kv = true)
                     (map_to_list (delete "" params)))).*1.
Proof.
  intros Hv Hkept. apply (Sorted_unique le).
  - apply sorted_keys_Sorted.
  - constructor; [apply sorted_keys_Sorted|].
    destruct (_.*1); constructor. apply string_le_empty.
  - rewrite !merge_sort_Permutation.
    rewrite <- (map_to_list_delete params "" v Hv).
    rewrite filter_cons_True; [done|].
    unfold kept. simpl. by rewrite Hkept.
Qed.

Lemma canonical_pairs_empty_key s (params : gmap string any) v :
  params !! "" = Some v → dropped s v = false →
  canonical_pairs s params
  = ("=" +:+ valueToString s v) :: canonical_pairs s (delete "" params).
Proof.
  intros Hv Hkept.
  rewrite !canonical_pairs_keys, (sorted_keys_empty_key s params v Hv Hkept).
  rewrite fmap_cons. f_equal.
  - unfold pair_of, index. by rewrite Hv.
  - apply list_fmap_ext. intros i k Hi.
    apply list_elem_of_lookup_2 in Hi.
    rewrite merge_sort_Permutation in Hi.
    apply list_elem_of_fmap in Hi as [[k' v'] [-> Hi]].
    apply list_elem_of_filter in Hi as [_ Hi].
    apply elem_of_map_to_list in Hi. simpl.
    unfold pair_of, index.
    destruct (decide (k' = "")) as [->|Hne].
    + by rewrite lookup_delete_eq in Hi.
    + by rewrite lookup_delete_ne.
Qed.

(** An entry whose value is not dropped has its pair in the canonical
    string, with its key as it is. *)
Lemma canonical_pairs_elem_of s (params : gmap string any) k v :
  params !! k = Some v → dropped s v = false →
  (k +:+ "=" +:+ valueToString s v) ∈ canonical_pairs s params.
Proof.
  intros Hv Hkept. unfold canonical_pairs.
  apply list_elem_of_fmap. exists (k, v). split; [done|].
  rewrite merge_sort_Permutation. apply list_elem_of_filter. split.
  - unfold kept. simpl. by rewrite Hkept.
  - by apply elem_of_map_to_list.
Qed.

Lemma not_dropped s v : valueToString s v ≠ "" → dropped s v = false.
Proof.
  intros Hne. rewrite dropped_split.
  destruct v as [|[|??]| | | | | | | | | |]; try done;
    simpl; by apply not_true_is_false; rewrite is_empty_true.
Qed.

End pairs.

(** ** Floats: the shortest decimal that reads back *)

Section shortest.
Import Strconv.

Lemma num_pos (p e : Z) : 0 < num p e.
Proof. unfold num. apply Z.mul_pos_pos; apply Z.pow_pos_nonneg; lia. Qed.

Lemma den_pos (p e : Z) : 0 < den p e.
Proof. unfold den. apply Z.mul_pos_pos; apply Z.pow_pos_nonneg; lia. Qed.

(** Lowering the binary exponent by one halves the unit. *)
Lemma units_step (p e : Z) :
  (num p e = 2 * num p (e - 1) ∧ den p (e - 1) = den p e)
  ∨ (num p e = num p (e - 1) ∧ den p (e - 1) = 2 * den p e).
Proof.
  unfold num, den. destruct (Z.le_gt_cases e 0) as [He|He].
  - right.
    replace (Z.max e 0) with 0 by lia.
    replace (Z.max (e - 1) 0) with 0 by lia.
    replace (Z.max (- e) 0) with (- e) by lia.
    replace (Z.max (- (e - 1)) 0) with (Z.succ (- e)) by lia.
    rewrite Z.pow_succ_r by lia. lia.
  - left.
    replace (Z.max e 0) with (Z.succ (e - 1)) by lia.
    replace (Z.max (e - 1) 0) with (e - 1) by lia.
    replace (Z.max (- e) 0) with 0 by lia.
    replace (Z.max (- (e - 1)) 0) with 0 by lia.
    rewrite Z.pow_succ_r by lia. lia.
Qed.

Lemma cmp_rescale (k p n e : Z) :
  cmp_dec_dyadic k p n e = cmp_dec_dyadic k p (2 * n) (e - 1).
Proof.
  unfold cmp_dec_dyadic.
  destruct (units_step p e) as [[-> ->]|[-> ->]].
  - f_equal. lia.
  - replace (k * (2 * den p e)) with (2 * (k * den p e)) by lia.
    replace (2 * n * num p (e - 1)) with (2 * (n * num p (e - 1))) by lia.
    apply Zmult_compare_compat_l. lia.
Qed.

Lemma cmp_rescale2 (k p n e : Z) :
  cmp_dec_dyadic k p n e = cmp_dec_dyadic k p (4 * n) (e - 2).
Proof.
  rewrite cmp_rescale, (cmp_rescale k p (2 * n)).
  replace (2 * (2 * n)) with (4 * n) by lia.
  by replace (e - 1 - 1) with (e - 2) by lia.
Qed.

(** The numerator of the lower bound over the exponent [e - 2]. *)
Lemma lower_bound_cmp flt (m e k p : Z) :
  ∃ l, (l = 4 * m - 2 ∨ l = 4 * m - 1)
       ∧ above_lower flt m e k p
         = match cmp_dec_dyadic k p l (e - 2) with
           | Gt => true | Eq => inclusive m | Lt => false
           end.
Proof.
  unfold above_lower, lower_bound.
  destruct ((2 ^ mantbits flt <? m) || (e =? emin flt)).
  - exists (4 * m - 2). split; [by left|].
    rewrite cmp_rescale.
    replace (2 * (2 * m - 1)) with (4 * m - 2) by lia.
    by replace (e - 1 - 1) with (e - 2) by lia.
  - exists (4 * m - 1). split; [by right|]. done.
Qed.

Lemma upper_bound_cmp (m e k p : Z) :
  below_upper m e k p
  = match cmp_dec_dyadic k p (4 * m + 2) (e - 2) with
    | Lt => true | Eq => inclusive m | Gt => false
    end.
Proof.
  unfold below_upper, upper_bound.
  rewrite cmp_rescale.
  replace (2 * (2 * m + 1)) with (4 * m + 2) by lia.
  by replace (e - 1 - 1) with (e - 2) by lia.
Qed.

Lemma cmp_spec (k p n e : Z) :
  CompareSpec (k * den p e = n * num p e) (k * den p e < n * num p e)
              (n * num p e < k * den p e) (cmp_dec_dyadic k p n e).
Proof. apply Z.compare_spec. Qed.

(** [floor_at] is the floor: in units of [10^p], the dyadic lies from it
    up to, and not including, its successor. *)
Lemma floor_at_bounds (p m e : Z) :
  floor_at p m e * den p (e - 2) <= 4 * m * num p (e - 2)
  ∧ 4 * m * num p (e - 2) < (floor_at p m e + 1) * den p (e - 2).
Proof.
  pose proof (den_pos p e) as Hd.
  assert (cmp_dec_dyadic (floor_at p m e) p m e ≠ Gt
          ∧ cmp_dec_dyadic (floor_at p m e + 1) p m e = Gt) as [H1 H2].
  { unfold cmp_dec_dyadic, floor_at.
    pose proof (Z.mul_div_le (m * num p e) (den p e) Hd).
    pose proof (Z.mul_succ_div_gt (m * num p e) (den p e) Hd).
    split; [apply Z.compare_ngt_iff|apply Z.compare_gt_iff]; lia. }
  rewrite cmp_rescale2 in H1, H2.
  destruct (cmp_spec (floor_at p m e) p (4 * m) (e - 2));
    destruct (cmp_spec (floor_at p m e + 1) p (4 * m) (e - 2));
    try done; lia.
Qed.

Lemma floor_at_le (p m e k : Z) :
  k * den p (e - 2) <= 4 * m * num p (e - 2) → k <= floor_at p m e.
Proof.
  intros Hk. pose proof (floor_at_bounds p m e) as [_ H].
  pose proof (den_pos p (e - 2)). nia.
Qed.

(** Above the lower bound is upward closed, below the upper bound is
    downward closed. *)
Lemma above_lower_mono flt (m e k k' p : Z) :
  k <= k' → above_lower flt m e k p = true → above_lower flt m e k' p = true.
Proof.
  intros Hk. unfold above_lower.
  destruct (lower_bound flt m e) as [n e'].
  pose proof (den_pos p e').
  destruct (cmp_spec k p n e'); destruct (cmp_spec k' p n e');
    try done; nia.
Qed.

Lemma below_upper_mono (m e k k' p : Z) :
  k' <= k → below_upper m e k p = true → below_upper m e k' p = true.
Proof.
  intros Hk. unfold below_upper.
  destruct (upper_bound m e) as [n e'].
  pose proof (den_pos p e').
  destruct (cmp_spec k p n e'); destruct (cmp_spec k' p n e');
    try done; nia.
Qed.

(** The floor is below the upper bound; its successor is above the lower
    bound. *)
Lemma below_upper_floor (m e p : Z) :
  0 < m → below_upper m e (floor_at p m e) p = true.
Proof.
  intros Hm. rewrite upper_bound_cmp.
  pose proof (floor_at_bounds p m e) as [H _].
  pose proof (num_pos p (e - 2)).
  destruct (cmp_spec (floor_at p m e) p (4 * m + 2) (e - 2)); try done; nia.
Qed.

Lemma above_lower_succ_floor flt (m e p : Z) :
  0 < m → above_lower flt m e (floor_at p m e + 1) p = true.
Proof.
  intros Hm.
  destruct (lower_bound_cmp flt m e (floor_at p m e + 1) p)
    as (l & Hl & ->).
  pose proof (floor_at_bounds p m e) as [_ H].
  pose proof (num_pos p (e - 2)).
  destruct (cmp_spec (floor_at p m e + 1) p l (e - 2)); try done;
    destruct Hl; nia.
Qed.


Lemma reads_back_exact flt (m e k p : Z) :
  0 < m → cmp_dec_dyadic k p m e = Eq → reads_back flt m e k p = true.
Proof.
  intros Hm Heq. rewrite cmp_rescale2 in Heq.
  pose proof (num_pos p (e - 2)).
  unfold reads_back. apply andb_true_intro. split.
  - destruct (lower_bound_cmp flt m e k p) as (l & Hl & ->).
    destruct (cmp_spec k p (4 * m) (e - 2)); try done.
    destruct (cmp_spec k p l (e - 2)); try done; destruct Hl; nia.
  - rewrite upper_bound_cmp.
    destruct (cmp_spec k p (4 * m) (e - 2)); try done.
    destruct (cmp_spec k p (4 * m + 2) (e - 2)); try done; nia.
Qed.

(** At its last decimal place the dyadic is a whole number of units. *)
Lemma floor_at_last_place (m e : Z) :
  cmp_dec_dyadic (floor_at (last_place e) m e) (last_place e) m e = Eq.
Proof.
  unfold cmp_dec_dyadic, floor_at, last_place. apply Z.compare_eq_iff.
  destruct (Z.le_gt_cases 0 e) as [He|He].
  - assert (den (Z.min e 0) e = 1) as ->.
    { unfold den. replace (Z.max (- e) 0) with 0 by lia.
      by replace (Z.max (Z.min e 0) 0) with 0 by lia. }
    rewrite Z.div_1_r. lia.
  - assert (num (Z.min e 0) e = 5 ^ (- e) * den (Z.min e 0) e) as ->.
    { unfold num, den. replace (Z.max e 0) with 0 by lia.
      replace (Z.max (- Z.min e 0) 0) with (- e) by lia.
      replace (Z.max (- e) 0) with (- e) by lia.
      replace (Z.max (Z.min e 0) 0) with 0 by lia.
      change 10 with (5 * 2) at 1. rewrite Z.pow_mul_l. simpl. lia. }
    pose proof (den_pos (Z.min e 0) e).
    rewrite Z.mul_assoc, Z.div_mul by lia. lia.
Qed.

Lemma round_nearest_cases (m e lo p : Z) :
  round_nearest m e lo p = lo ∨ round_nearest m e lo p = lo + 1.
Proof.
  unfold round_nearest.
  destruct (cmp_dec_dyadic _ _ _ _), (Z.even lo); auto.
Qed.

(** Round trip: the decimal the loop stops at reads back as the float. *)
Lemma shortest_loop_reads_back flt (m e : Z) (fuel : nat) (p : Z) :
  0 < m → p - Z.of_nat fuel = last_place e →
  reads_back flt m e (fst (shortest_loop flt m e fuel p))
                     (snd (shortest_loop flt m e fuel p)) = true.
Proof.
  intros Hm. revert p. induction fuel as [|fuel IH]; intros p Hp.
  { cbn [shortest_loop fst snd]. apply reads_back_exact; [done|].
    replace p with (last_place e) by lia. apply floor_at_last_place. }
  cbn [shortest_loop].
  destruct (above_lower flt m e (floor_at p m e) p) eqn:Hdown;
    destruct (below_upper m e (floor_at p m e + 1) p) eqn:Hup;
    cbn [andb fst snd].
  - unfold reads_back.
    destruct (round_nearest_cases m e (floor_at p m e) p) as [-> | ->].
    + by rewrite Hdown, below_upper_floor.
    + by rewrite Hup, above_lower_succ_floor.
  - unfold reads_back. by rewrite Hdown, below_upper_floor.
  - unfold reads_back. by rewrite Hup, above_lower_succ_floor.
  - apply IH. lia.
Qed.

(** Shortest: the loop stops at the coarsest decimal place at which some
    decimal reads back as the float. *)
Lemma shortest_loop_coarsest flt (m e : Z) (fuel : nat) (p : Z) :
  (∀ k' p', p < p' → reads_back flt m e k' p' = false) →
  ∀ k' p', snd (shortest_loop flt m e fuel p) < p' →
           reads_back flt m e k' p' = false.
Proof.
  revert p. induction fuel as [|fuel IH]; intros p Habove; [done|].
  cbn [shortest_loop].
  destruct (above_lower flt m e (floor_at p m e) p) eqn:Hdown;
    destruct (below_upper m e (floor_at p m e + 1) p) eqn:Hup;
    cbn [andb fst snd]; try done.
  apply IH. intros k' p' Hp'.
  destruct (decide (p < p')) as [|Hnlt]; [by apply Habove|].
  assert (p' = p) as -> by lia. unfold reads_back.
  destruct (Z.le_gt_cases k' (floor_at p m e)) as [Hk|Hk].
  - destruct (above_lower flt m e k' p) eqn:Hk'; [|done].
    by rewrite (above_lower_mono flt m e k' _ p Hk Hk') in Hdown.
  - destruct (below_upper m e k' p) eqn:Hk'; [|by rewrite andb_false_r].
    rewrite (below_upper_mono m e k' (floor_at p m e + 1) p) in Hup;
      [done|lia|done].
Qed.

Lemma pow2_le_pow10 (n : Z) : 0 <= n → 2 ^ n <= 10 ^ n.
Proof. intros Hn. apply Z.pow_le_mono_l. lia. Qed.

(** No decimal at a place above [top_place] reads back. *)
Lemma above_top_place flt (m e k' p' : Z) :
  0 < m → top_place m e < p' → reads_back flt m e k' p' = false.
Proof.
  intros Hm Hp'. unfold reads_back.
  destruct (Z.le_gt_cases k' 0) as [Hk|Hk].
  - destruct (lower_bound_cmp flt m e k' p') as (l & Hl & ->).
    pose proof (num_pos p' (e - 2)). pose proof (den_pos p' (e - 2)).
    destruct (cmp_spec k' p' l (e - 2)); try done; destruct Hl; nia.
  - rewrite upper_bound_cmp.
    enough ((4 * m + 2) * num p' (e - 2) < den p' (e - 2)) as Hlt.
    { pose proof (den_pos p' (e - 2)).
      destruct (cmp_spec k' p' (4 * m + 2) (e - 2));
        rewrite ?andb_false_r; try done; nia. }
    unfold top_place in Hp'.
    pose proof (Z.log2_spec (2 * m + 1) ltac:(lia)) as [_ Hlog].
    set (L := Z.log2 (2 * m + 1)) in *.
    assert (0 <= L) as HL by apply Z.log2_nonneg.
    unfold num, den.
    replace (Z.max (- p') 0) with 0 by lia.
    replace (Z.max p' 0) with p' by lia.
    rewrite Z.pow_0_r, Z.mul_1_r.
    pose proof (pow2_le_pow10 p' ltac:(lia)) as H10.
    destruct (Z.le_gt_cases 2 e) as [He|He].
    + replace (Z.max (e - 2) 0) with (e - 2) by lia.
      replace (Z.max (- (e - 2)) 0) with 0 by lia.
      rewrite Z.pow_0_r, Z.mul_1_l.
      assert (2 ^ (Z.succ L) * (2 * 2 ^ (e - 2)) <= 2 ^ p') as Hpow.
      { rewrite <- (Z.pow_succ_r 2 (e - 2)), <- Z.pow_add_r by lia.
        apply Z.pow_le_mono_r; lia. }
      assert (0 < 2 ^ (e - 2)) by (apply Z.pow_pos_nonneg; lia).
      nia.
    + replace (Z.max (e - 2) 0) with 0 by lia.
      replace (Z.max (- (e - 2)) 0) with (2 - e) by lia.
      rewrite Z.pow_0_r, Z.mul_1_r.
      assert (2 * 2 ^ (Z.succ L) <= 2 ^ (2 - e) * 2 ^ p') as Hpow.
      { rewrite <- Z.pow_add_r by lia.
        rewrite <- (Z.pow_succ_r 2 (Z.succ L)) by lia.
        apply Z.pow_le_mono_r; lia. }
      assert (0 < 2 ^ (2 - e)) by (apply Z.pow_pos_nonneg; lia).
      nia.
Qed.

Lemma shortest_reads_back flt (m e : Z) :
  0 < m →
  reads_back flt m e (fst (shortest flt m e)) (snd (shortest flt m e)) = true.
Proof.
  intros Hm. apply shortest_loop_reads_back; [done|].
  unfold top_place, last_place. lia.
Qed.

Lemma shortest_coarsest flt (m e k' p' : Z) :
  0 < m → snd (shortest flt m e) < p' → reads_back flt m e k' p' = false.
Proof.
  intros Hm. apply shortest_loop_coarsest.
  intros k'' p''. by apply above_top_place.
Qed.

End shortest.

(** ** Integers are written in base 10 *)

Section integers.

Lemma chars_app (a b : string) :
  GoString.chars (a +:+ b) = GoString.chars a ++ GoString.chars b.
Proof.
  induction a as [|c a IH]; [done|].
  rewrite app_String. cbn. f_equal. apply IH.
Qed.

Lemma length_app_string (a b : string) :
  String.length (a +:+ b) = (String.length a + String.length b)%nat.
Proof.
  induction a as [|c a IH]; [done|].
  rewrite app_String. simpl. by rewrite IH.
Qed.

Lemma digit_value_digit_char (d : Z) :
  0 <= d < 10 → Read.digit_value (Strconv.digit_char d) = Some d.
Proof.
  intros Hd.
  assert (d = 0 ∨ d = 1 ∨ d = 2 ∨ d = 3 ∨ d = 4 ∨ d = 5 ∨ d = 6 ∨ d = 7
          ∨ d = 8 ∨ d = 9) as Hcases by lia.
  repeat (destruct Hcases as [->|Hcases]; [reflexivity|]).
  by rewrite Hcases.
Qed.

(** The digit loop writes, in front of the buffer, a non-empty text [ds]
    of digits that denotes [u] and starts with a zero only when it is
    ["0"]. *)
Lemma formatBits_digits (fuel : nat) (u : Z) (buf : string) :
  0 <= u < 10 ^ Z.of_nat fuel → (0 < fuel)%nat →
  ∃ ds : string,
    Strconv.formatBits fuel u buf = ds +:+ buf
    ∧ (0 < String.length ds)%nat
    ∧ (∀ c, c ∈ GoString.chars ds → is_Some (Read.digit_value c))
    ∧ (String.get 0 ds = Some "0"%char → u = 0 ∧ ds = "0")
    ∧ ∀ acc rest,
        Read.digits acc (ds +:+ rest)
        = Read.digits (acc * 10 ^ Z.of_nat (String.length ds) + u) rest.
Proof.
  revert u buf. induction fuel as [|fuel IH]; intros u buf Hu Hfuel.
  { lia. }
  cbn [Strconv.formatBits].
  destruct (u <? 10) eqn:Hlt.
  - apply Z.ltb_lt in Hlt.
    assert (Read.digit_value (Strconv.digit_char u) = Some u) as Hd
      by (apply digit_value_digit_char; lia).
    exists (String (Strconv.digit_char u) "").
    split; [done|]. split; [simpl; lia|]. split; [|split].
    + intros c Hc. apply list_elem_of_singleton in Hc as ->. by rewrite Hd.
    + intros [= Hc]. rewrite Hc in Hd. injection Hd as <-.
      split; [done|]. by rewrite Hc.
    + intros acc rest. rewrite app_String. cbn [Read.digits].
      rewrite Hd. f_equal. simpl. lia.
  - apply Z.ltb_ge in Hlt.
    assert (0 <= u / 10 < 10 ^ Z.of_nat fuel) as Hq.
    { split; [apply Z.div_pos; lia|].
      apply Z.div_lt_upper_bound; [lia|].
      rewrite Nat2Z.inj_succ, Z.pow_succ_r in Hu; lia. }
    assert (1 <= u / 10) as Hq1 by (apply Z.div_le_lower_bound; lia).
    assert (0 < fuel)%nat as Hfuel'.
    { destruct fuel; [|lia]. simpl in Hq. lia. }
    assert (Read.digit_value (Strconv.digit_char (u mod 10))
            = Some (u mod 10)) as Hd
      by (apply digit_value_digit_char, Z.mod_pos_bound; lia).
    destruct (IH (u / 10) (String (Strconv.digit_char (u mod 10)) buf)
                Hq Hfuel')
      as (ds & Heq & Hlen & Hall & Hzero & Hread).
    exists (ds +:+ String (Strconv.digit_char (u mod 10)) "").
    split; [by rewrite app_assoc_string|].
    split; [rewrite length_app_string; lia|]. split; [|split].
    + intros c. rewrite chars_app, elem_of_app.
      intros [Hc|Hc]; [by apply Hall|].
      apply list_elem_of_singleton in Hc as ->. by rewrite Hd.
    + intros Hget. destruct ds as [|c ds]; [simpl in Hlen; lia|].
      rewrite app_String in Hget. destruct (Hzero Hget). lia.
    + intros acc rest. rewrite app_assoc_string, Hread, app_String.
      cbn [Read.digits]. rewrite Hd. f_equal.
      rewrite length_app_string. cbn [String.length].
      replace (Z.of_nat (String.length ds + 1))
        with (Z.succ (Z.of_nat (String.length ds))) by lia.
      rewrite Z.pow_succ_r by lia.
      pose proof (Z.div_mod u 10 ltac:(lia)). change ("" +:+ rest) with rest.
      nia.
Qed.

Lemma natural_digits (ds : string) (u : Z) :
  (0 < String.length ds)%nat →
  (String.get 0 ds = Some "0"%char → u = 0 ∧ ds = "0") →
  Read.natural ds = Read.digits 0 ds.
Proof.
  intros Hlen Hzero. destruct ds as [|c ds]; [simpl in Hlen; lia|].
  unfold Read.natural.
  destruct (decide (c = "0"%char)) as [->|Hne].
  - destruct (Hzero eq_refl) as [_ [= ->]]. done.
  - destruct c as [[] [] [] [] [] [] [] []]; try done.
Qed.

Lemma natural_FormatUint (u : Z) :
  0 <= u < 2 ^ 64 → Read.natural (Strconv.FormatUint u) = Some u.
Proof.
  intros Hu. unfold Strconv.FormatUint.
  destruct (formatBits_digits 20 u "")
    as (ds & Heq & Hlen & Hall & Hzero & Hread).
  { change (2 ^ 64) with 18446744073709551616 in Hu.
    change (10 ^ Z.of_nat 20) with 100000000000000000000. lia. }
  { lia. }
  rewrite Heq, string_app_empty_r, (natural_digits ds u Hlen Hzero).
  rewrite <- (string_app_empty_r ds), Hread. done.
Qed.

Lemma FormatUint_not_minus (u : Z) :
  0 <= u < 2 ^ 64 →
  ∃ c rest, Strconv.FormatUint u = String c rest ∧ c ≠ "-"%char.
Proof.
  intros Hu. pose proof (natural_FormatUint u Hu) as Hn.
  destruct (Strconv.FormatUint u) as [|c rest]; [done|].
  exists c, rest. split; [done|]. intros ->. done.
Qed.

Lemma integer_FormatUint (u : Z) :
  0 <= u < 2 ^ 64 → Read.integer (Strconv.FormatUint u) = Some u.
Proof.
  intros Hu. destruct (FormatUint_not_minus u Hu) as (c & rest & Heq & Hc).
  rewrite <- (natural_FormatUint u Hu), Heq. unfold Read.integer.
  destruct c as [[] [] [] [] [] [] [] []]; try done.
Qed.

Lemma integer_FormatInt (i : Z) :
  - 2 ^ 63 <= i < 2 ^ 63 → Read.integer (Strconv.FormatInt i) = Some i.
Proof.
  intros Hi. unfold Strconv.FormatInt.
  destruct (i <? 0) eqn:Hneg.
  - apply Z.ltb_lt in Hneg. cbn [Read.integer].
    rewrite natural_FormatUint by lia. simpl. f_equal. lia.
  - apply Z.ltb_ge in Hneg. apply integer_FormatUint. lia.
Qed.

End integers.

(** ** Floats: the layout of the digits *)

Section layout.
Import Strconv.

Lemma string_of_list_ascii_app (a b : list ascii) :
  String.string_of_list_ascii (a ++ b)
  = String.string_of_list_ascii a +:+ String.string_of_list_ascii b.
Proof. induction a as [|c a IH]; [done|]. simpl. by rewrite IH. Qed.

Lemma string_of_chars (s : string) :
  String.string_of_list_ascii (GoString.chars s) = s.
Proof. apply String.string_of_list_ascii_of_string. Qed.

Lemma chars_of_list (l : list ascii) :
  GoString.chars (String.string_of_list_ascii l) = l.
Proof. apply String.list_ascii_of_string_of_list_ascii. Qed.

Lemma length_chars (s : string) :
  length (GoString.chars s) = String.length s.
Proof. induction s as [|c s IH]; [done|]. simpl. by rewrite <- IH. Qed.

(** Reading digits across a concatenation. *)
Lemma digits_app (acc : Z) (a b : string) :
  Read.digits acc (a +:+ b)
  = match Read.digits acc a with
    | Some i => Read.digits i b
    | None => None
    end.
Proof.
  revert acc. induction a as [|c a IH]; intros acc; [done|].
  rewrite app_String. cbn [Read.digits].
  destruct (Read.digit_value c); [apply IH|done].
Qed.

Lemma digits_is_Some (acc : Z) (s : string) :
  (∀ c, c ∈ GoString.chars s → is_Some (Read.digit_value c)) →
  is_Some (Read.digits acc s).
Proof.
  revert acc. induction s as [|c s IH]; intros acc Hall; [by eexists|].
  cbn [Read.digits]. destruct (Hall c) as [d ->]; [by left|].
  apply IH. intros c' Hc'. apply Hall. by right.
Qed.

Lemma digits_zeros (acc n : Z) (rest : string) :
  0 <= n →
  Read.digits acc (String.string_of_list_ascii (zeros n) +:+ rest)
  = Read.digits (acc * 10 ^ n) rest.
Proof.
  intros Hn. unfold zeros. rewrite <- (Z2Nat.id n) at 2 by done.
  generalize (Z.to_nat n). clear n Hn. intros n. revert acc.
  induction n as [|n IH]; intros acc.
  { simpl. f_equal. lia. }
  cbn [replicate String.string_of_list_ascii]. rewrite app_String.
  cbn [Read.digits]. change (Read.digit_value "0") with (Some 0).
  cbv iota beta. rewrite IH. f_equal.
  rewrite Nat2Z.inj_succ, Z.pow_succ_r by lia. lia.
Qed.

Lemma digit_not_point (c : ascii) :
  is_Some (Read.digit_value c) → Ascii.eqb c "." = false ∧ c ≠ "-"%char.
Proof.
  intros [d Hd]. split.
  - apply Ascii.eqb_neq. intros ->. done.
  - intros ->. done.
Qed.

Lemma split_point_digits (ip : string) (rest : option string) :
  (∀ c, c ∈ GoString.chars ip → is_Some (Read.digit_value c)) →
  ReadFixed.split_point
    (ip +:+ match rest with Some f => String "." f | None => "" end)
  = (ip, rest).
Proof.
  induction ip as [|c ip IH]; intros Hall.
  { destruct rest; done. }
  rewrite app_String. cbn [ReadFixed.split_point].
  destruct (digit_not_point c) as [-> _]; [apply Hall; by left|].
  rewrite IH; [done|]. intros c' Hc'. apply Hall. by right.
Qed.


(** The fraction digits [fmtF] writes: digit [dp + i] of [d] for each
    [i] below [prec], and a zero where [d] has no such digit. *)
Lemma fraction_lookup (d : list ascii) (dp0 : Z) (prec : nat) (i : nat) :
  map (fun i => let j := dp0 + i in
                if (0 <=? j) && (j <? Z.of_nat (length d))
                then nth (Z.to_nat j) d "0"%char else "0"%char)
      (map Z.of_nat (seq 0 prec)) !! i
  = if decide (i < prec)%nat
    then Some (if decide (0 <= dp0 + Z.of_nat i < Z.of_nat (length d))
               then nth (Z.to_nat (dp0 + Z.of_nat i)) d "0"%char
               else "0"%char)
    else None.
Proof.
  rewrite !list_lookup_fmap. destruct (decide (i < prec)%nat) as [Hi|Hi].
  - rewrite lookup_seq_lt by done. cbn.
    destruct (decide (0 <= dp0 + Z.of_nat i < Z.of_nat (length d)))
      as [Hj|Hj].
    + replace (0 <=? dp0 + Z.of_nat i) with true by lia.
      by replace (dp0 + Z.of_nat i <? Z.of_nat (length d)) with true by lia.
    + destruct (0 <=? dp0 + Z.of_nat i) eqn:H1; [|done].
      by replace (dp0 + Z.of_nat i <? Z.of_nat (length d)) with false by lia.
  - by rewrite lookup_seq_ge by lia.
Qed.

Lemma fraction_drop (d : list ascii) (a : nat) :
  (a <= length d)%nat →
  map (fun i => let j := Z.of_nat a + i in
                if (0 <=? j) && (j <? Z.of_nat (length d))
                then nth (Z.to_nat j) d "0"%char else "0"%char)
      (map Z.of_nat (seq 0 (length d - a)))
  = drop a d.
Proof.
  intros Ha. apply list_eq. intros i.
  rewrite fraction_lookup, lookup_drop.
  destruct (decide (i < length d - a)%nat) as [Hi|Hi].
  - rewrite decide_True by lia.
    replace (Z.to_nat (Z.of_nat a + Z.of_nat i)) with (a + i)%nat by lia.
    rewrite nth_lookup.
    destruct (lookup_lt_is_Some_2 d (a + i)) as [c ->]; [lia|done].
  - symmetry. apply lookup_ge_None. lia.
Qed.

Lemma fraction_zeros (d : list ascii) (z : nat) :
  map (fun i => let j := - Z.of_nat z + i in
                if (0 <=? j) && (j <? Z.of_nat (length d))
                then nth (Z.to_nat j) d "0"%char else "0"%char)
      (map Z.of_nat (seq 0 (z + length d)))
  = replicate z "0"%char ++ d.
Proof.
  apply list_eq. intros i. rewrite fraction_lookup.
  destruct (decide (i < z)%nat) as [Hz|Hz].
  - rewrite decide_True by lia. rewrite decide_False by lia.
    rewrite lookup_app_l by (rewrite length_replicate; lia).
    by rewrite lookup_replicate_2.
  - rewrite lookup_app_r by (rewrite length_replicate; lia).
    rewrite length_replicate.
    destruct (decide (i < z + length d)%nat) as [Hi|Hi].
    + rewrite decide_True by lia.
      replace (Z.to_nat (- Z.of_nat z + Z.of_nat i)) with (i - z)%nat by lia.
      rewrite nth_lookup.
      destruct (lookup_lt_is_Some_2 d (i - z)) as [c ->]; [lia|done].
    + symmetry. apply lookup_ge_None. lia.
Qed.

Lemma signed_body (neg : bool) (c : ascii) (body : string) :
  is_Some (Read.digit_value c) →
  ReadFixed.signed ((if neg then "-" else "") +:+ String c body)
  = pair neg <$> ReadFixed.unsigned (String c body).
Proof.
  intros Hc. destruct neg; [done|].
  change ("" +:+ String c body) with (String c body).
  destruct (digit_not_point c Hc) as [_ Hne]. unfold ReadFixed.signed.
  destruct c as [[] [] [] [] [] [] [] []]; try done.
Qed.


Lemma digits_of_spec (k : Z) :
  0 < k →
  ∃ ds : string,
    digits_of k = GoString.chars ds
    ∧ (0 < String.length ds)%nat
    ∧ (∀ c, c ∈ GoString.chars ds → is_Some (Read.digit_value c))
    ∧ String.get 0 ds ≠ Some "0"%char
    ∧ ∀ acc rest,
        Read.digits acc (ds +:+ rest)
        = Read.digits (acc * 10 ^ Z.of_nat (String.length ds) + k) rest.
Proof.
  intros Hk. unfold digits_of.
  destruct (formatBits_digits (S (Z.to_nat (Z.log2 k))) k "")
    as (ds & Heq & Hlen & Hall & Hzero & Hread).
  { pose proof (Z.log2_nonneg k).
    pose proof (Z.log2_spec k Hk) as [_ Hlog].
    rewrite Nat2Z.inj_succ, Z2Nat.id by done.
    pose proof (pow2_le_pow10 (Z.succ (Z.log2 k)) ltac:(lia)). lia. }
  { lia. }
  exists ds. rewrite Heq, string_app_empty_r.
  split; [done|]. split; [done|]. split; [done|]. split; [|done].
  intros Hget. destruct (Hzero Hget) as [Hk0 _]. lia.
Qed.

Lemma natural_nonzero (ds : string) :
  (0 < String.length ds)%nat → String.get 0 ds ≠ Some "0"%char →
  Read.natural ds = Read.digits 0 ds.
Proof.
  intros Hlen Hz. apply (natural_digits ds 1 Hlen). by intros ?.
Qed.

Lemma unsigned_integer (ip : string) (i : Z) :
  (∀ c, c ∈ GoString.chars ip → is_Some (Read.digit_value c)) →
  Read.natural ip = Some i →
  ReadFixed.unsigned ip = Some (i, 0).
Proof.
  intros Hall Hi. unfold ReadFixed.unsigned.
  pose proof (split_point_digits ip None Hall) as Hs.
  rewrite string_app_empty_r in Hs. by rewrite Hs, Hi.
Qed.

Lemma unsigned_fraction (ip f : string) (i k : Z) :
  (∀ c, c ∈ GoString.chars ip → is_Some (Read.digit_value c)) →
  Read.natural ip = Some i → (0 < String.length f)%nat →
  Read.digits i f = Some k →
  ReadFixed.unsigned (ip +:+ String "." f)
  = Some (k, - Z.of_nat (String.length f)).
Proof.
  intros Hall Hi Hf Hk. unfold ReadFixed.unsigned.
  rewrite (split_point_digits ip (Some f) Hall), Hi, Hk.
  destruct f; [simpl in Hf; lia|done].
Qed.


(** The text [fmtF] lays out for the digits of [k] at place [p] denotes
    [k * 10^p], with [-p] decimal places when [p] is negative and none
    otherwise. *)
Lemma fmtF_reads (neg : bool) (k p : Z) :
  0 < k →
  ReadFixed.signed
    (fmtF neg (slice_of (k, p))
       (Z.max (nd (slice_of (k, p)) - dp (slice_of (k, p))) 0))
  = Some (neg, (k * 10 ^ Z.max p 0, Z.min p 0)).
Proof.
  intros Hk.
  destruct (digits_of_spec k Hk) as (ds & Hds & Hlen & Hall & Hnz & Hread).
  assert (∃ c0 ds0, ds = String c0 ds0) as (c0 & ds0 & Eds).
  { destruct ds; [simpl in Hlen; lia|eauto]. }
  assert (is_Some (Read.digit_value c0)) as Hc0.
  { apply Hall. rewrite Eds. by left. }
  assert (Read.natural ds = Some k) as Hnat.
  { rewrite (natural_nonzero ds Hlen Hnz).
    rewrite <- (string_app_empty_r ds), Hread. cbn [Read.digits]. f_equal; lia. }
  assert (Read.digits 0 ds = Some k) as Hdig.
  { by rewrite <- (natural_nonzero ds Hlen Hnz). }
  unfold slice_of, fmtF, nd. cbn [fst snd d dp]. rewrite Hds.
  pose proof (length_chars ds) as Hn.
  pose proof (string_of_chars ds) as Hsc.
  set (dl := GoString.chars ds) in *.
  set (n := length dl) in *.
  replace (Z.of_nat n - (Z.of_nat n + p)) with (- p) by lia.
  rewrite !string_of_list_ascii_app.
  assert (String.string_of_list_ascii (if neg then ["-"%char] else [])
          = if neg then "-" else "") as -> by (by destruct neg).
  destruct (Z.le_gt_cases 0 p) as [Hp|Hp].
  - (* no decimal place *)
    replace (0 <? Z.of_nat n + p) with true by lia.
    replace (Z.min (Z.of_nat n) (Z.of_nat n + p)) with (Z.of_nat n) by lia.
    replace (0 <? Z.max (- p) 0) with false by lia.
    replace (Z.of_nat n + p - Z.of_nat n) with p by lia.
    rewrite Nat2Z.id. rewrite (firstn_all dl : take n dl = dl).
    rewrite string_of_list_ascii_app, Hsc.
    change (String.string_of_list_ascii []) with "".
    rewrite string_app_empty_r.
    replace (Z.max p 0) with p by lia. replace (Z.min p 0) with 0 by lia.
    rewrite Eds, app_String, signed_body by done. rewrite <- app_String, <- Eds.
    rewrite (unsigned_integer _ (k * 10 ^ p)); [done| |].
    + intros c. rewrite chars_app, chars_of_list, elem_of_app.
      intros [Hc|Hc]; [by apply Hall|].
      apply elem_of_replicate in Hc as [-> _]. by eexists.
    + assert (Read.natural (ds +:+ String.string_of_list_ascii (zeros p))
              = Read.digits 0
                  (ds +:+ String.string_of_list_ascii (zeros p))) as ->.
      { apply natural_nonzero.
        - rewrite length_app_string. lia.
        - rewrite Eds, app_String. by rewrite Eds in Hnz. }
      rewrite Hread. rewrite <- (string_app_empty_r (String.string_of_list_ascii _)).
      rewrite digits_zeros by done. cbn [Read.digits]. f_equal; lia.
  - replace (0 <? Z.max (- p) 0) with true by lia.
    replace (Z.max (- p) 0) with (- p) by lia.
    replace (Z.max p 0) with 0 by lia. replace (Z.min p 0) with p by lia.
    rewrite Z.pow_0_r, Z.mul_1_r.
    destruct (Z.ltb_spec 0 (Z.of_nat n + p)) as [Hdp|Hdp].
    + (* the point is inside the digits *)
      replace (Z.min (Z.of_nat n) (Z.of_nat n + p))
        with (Z.of_nat n + p) by lia.
      rewrite Z.sub_diag. change (zeros 0) with (@nil ascii).
      rewrite app_nil_r.
      set (a := Z.to_nat (Z.of_nat n + p)).
      assert (a <= n)%nat as Han by lia.
      assert (0 < a)%nat as Ha0 by lia.
      replace (Z.of_nat n + p) with (Z.of_nat a) by lia.
      replace (Z.to_nat (- p)) with (n - a)%nat by lia.
      unfold n at 1 2. rewrite fraction_drop by done.
      set (I := String.string_of_list_ascii (take a dl)).
      set (F := String.string_of_list_ascii (drop a dl)).
      assert (I +:+ F = ds) as HIF.
      { unfold I, F. by rewrite <- string_of_list_ascii_app, take_drop. }
      assert (∀ c, c ∈ GoString.chars I → is_Some (Read.digit_value c))
        as HallI.
      { intros c. unfold I. rewrite chars_of_list.
        intros Hc. by apply Hall, (subseteq_take a dl). }
      assert (∃ I0, I = String c0 I0) as [I0 EI].
      { unfold I, dl. rewrite Eds. destruct a as [|a']; [lia|]. cbn. eauto. }
      assert (String.length F = Z.to_nat (- p)) as HlenF.
      { rewrite <- length_chars. unfold F.
        rewrite chars_of_list, length_drop. lia. }
      destruct (digits_is_Some 0 I HallI) as [i Hi].
      assert (Read.natural I = Some i) as HnatI.
      { rewrite natural_nonzero; [done| |].
        - rewrite EI. simpl. lia.
        - rewrite EI. rewrite Eds in Hnz. done. }
      assert (Read.digits i F = Some k) as HF.
      { rewrite <- Hdig, <- HIF, digits_app. by rewrite Hi. }
      change (String.string_of_list_ascii ("."%char :: drop a dl))
        with (String "." F).
      rewrite EI, app_String, signed_body by done.
      rewrite <- app_String, <- EI.
      rewrite (unsigned_fraction I F i k HallI HnatI ltac:(lia) HF), HlenF.
      cbn. do 3 f_equal. lia.
    + (* the point is in front of the digits *)
      set (z := Z.to_nat (- (Z.of_nat n + p))).
      replace (Z.of_nat n + p) with (- Z.of_nat z) by lia.
      replace (Z.to_nat (- p)) with (z + n)%nat by lia.
      unfold n at 1 2. rewrite fraction_zeros.
      set (F := String.string_of_list_ascii (replicate z "0"%char ++ dl)).
      change (String.string_of_list_ascii ["0"%char] +:+
              String.string_of_list_ascii ("."%char :: replicate z "0"%char
                                                     ++ dl))
        with (String "0" ("" +:+ String "." F)).
      rewrite signed_body by (by eexists).
      change (String "0" ("" +:+ String "." F)) with ("0" +:+ String "." F).
      assert (String.length F = Z.to_nat (- p)) as HlenF.
      { rewrite <- length_chars. unfold F.
        rewrite chars_of_list, length_app, length_replicate. lia. }
      assert (Read.digits 0 F = Some k) as HF.
      { unfold F. rewrite string_of_list_ascii_app, Hsc.
        pose proof (digits_zeros 0 (Z.of_nat z) ds ltac:(lia)) as Hz.
        unfold zeros in Hz. rewrite Nat2Z.id in Hz. by rewrite Hz. }
      rewrite (unsigned_fraction "0" F 0 k), HlenF; try done; try lia.
      * cbn. do 3 f_equal. lia.
      * intros c Hc. apply list_elem_of_singleton in Hc as ->. by eexists.
Qed.

End layout.

(** ** Floats: the text of a finite float *)

Section format_float.
Import Strconv.

Lemma reads_back_pos flt (m e k p : Z) :
  0 < m → reads_back flt m e k p = true → 0 < k.
Proof.
  intros Hm [Hlow _]%andb_prop.
  destruct (lower_bound_cmp flt m e k p) as (l & Hl & Heq).
  rewrite Heq in Hlow.
  pose proof (num_pos p (e - 2)). pose proof (den_pos p (e - 2)).
  destruct (cmp_spec k p l (e - 2)); try done; destruct Hl; nia.
Qed.

(** The text of a finite non-zero float: positional notation for the
    decimal [k * 10^p] found by [shortest], which reads back as the float
    and has the coarsest last place of all decimals that do. *)
Lemma FormatFloat_finite (neg : bool) (m : positive) (e bitSize : Z) :
  ∃ k p,
    shortest (info_of bitSize) (Z.pos m) e = (k, p)
    ∧ ReadFixed.signed
        (FormatFloat_f_shortest (S754_finite neg m e) bitSize)
      = Some (neg, (k * 10 ^ Z.max p 0, Z.min p 0))
    ∧ reads_back (info_of bitSize) (Z.pos m) e k p = true
    ∧ ∀ k' p', p < p' →
               reads_back (info_of bitSize) (Z.pos m) e k' p' = false.
Proof.
  pose proof (shortest_reads_back (info_of bitSize) (Z.pos m) e ltac:(lia))
    as Hrb.
  pose proof (shortest_coarsest (info_of bitSize) (Z.pos m) e) as Hco.
  cbn [FormatFloat_f_shortest].
  destruct (shortest (info_of bitSize) (Z.pos m) e) as [k p] eqn:Hs.
  cbn [fst snd] in *. exists k, p. split; [done|].
  split; [|split; [done|]].
  - apply fmtF_reads.
    by apply (reads_back_pos (info_of bitSize) (Z.pos m) e k p).
  - intros k' p' Hp'. apply Hco; lia.
Qed.

End format_float.

(** ** Floats: no decimal with fewer digits reads back *)

Section fewest_digits.
Import Strconv.

(** Decimals at different places are compared over a common place. *)
Lemma units_places (p1 p2 e : Z) :
  den p1 e * num p2 e * 10 ^ Z.max (p2 - p1) 0
  = den p2 e * num p1 e * 10 ^ Z.max (p1 - p2) 0.
Proof.
  unfold num, den.
  transitivity (2 ^ Z.max (- e) 0 * 2 ^ Z.max e 0
                * (10 ^ Z.max p1 0 * 10 ^ Z.max (- p2) 0
                   * 10 ^ Z.max (p2 - p1) 0)); [ring|].
  transitivity (2 ^ Z.max (- e) 0 * 2 ^ Z.max e 0
                * (10 ^ Z.max p2 0 * 10 ^ Z.max (- p1) 0
                   * 10 ^ Z.max (p1 - p2) 0)); [|ring].
  f_equal. rewrite <- !Z.pow_add_r by lia. f_equal. lia.
Qed.

(** If [k1 * 10^p1 <= k2 * 10^p2], a dyadic below the first decimal is
    below the second. *)
Lemma cmp_value_mono (k1 p1 k2 p2 n e : Z) :
  k1 * 10 ^ Z.max (p1 - p2) 0 <= k2 * 10 ^ Z.max (p2 - p1) 0 →
  (n * num p1 e < k1 * den p1 e → n * num p2 e < k2 * den p2 e)
  ∧ (n * num p1 e <= k1 * den p1 e → n * num p2 e <= k2 * den p2 e).
Proof.
  intros Hle.
  pose proof (units_places p1 p2 e) as Hu.
  pose proof (num_pos p1 e). pose proof (num_pos p2 e).
  pose proof (den_pos p1 e). pose proof (den_pos p2 e).
  assert (0 < 10 ^ Z.max (p1 - p2) 0) by (apply Z.pow_pos_nonneg; lia).
  assert (0 < 10 ^ Z.max (p2 - p1) 0) by (apply Z.pow_pos_nonneg; lia).
  set (a := 10 ^ Z.max (p1 - p2) 0) in *.
  set (b := 10 ^ Z.max (p2 - p1) 0) in *.
  set (N1 := num p1 e) in *. set (N2 := num p2 e) in *.
  set (D1 := den p1 e) in *. set (D2 := den p2 e) in *.
  assert (0 < N1 * a) by (by apply Z.mul_pos_pos).
  assert (0 < N2 * a) by (by apply Z.mul_pos_pos).
  assert (0 < D1 * N2) by (by apply Z.mul_pos_pos).
  assert (k1 * D1 * (N2 * a) <= k2 * D2 * (N1 * a)) as Hk.
  { replace (k1 * D1 * (N2 * a)) with (k1 * a * (D1 * N2)) by ring.
    replace (k2 * D2 * (N1 * a)) with (k2 * b * (D1 * N2)).
    - apply Z.mul_le_mono_nonneg_r; lia.
    - transitivity (k2 * (D1 * N2 * b)); [ring|]. rewrite Hu. ring. }
  split; intros Hn.
  - apply Z.mul_lt_mono_pos_r with (p := N1 * a); [done|].
    eapply Z.lt_le_trans; [|exact Hk].
    replace (n * N2 * (N1 * a)) with (n * N1 * (N2 * a)) by ring.
    by apply Z.mul_lt_mono_pos_r.
  - apply Z.mul_le_mono_pos_r with (p := N1 * a); [done|].
    etrans; [|exact Hk].
    replace (n * N2 * (N1 * a)) with (n * N1 * (N2 * a)) by ring.
    apply Z.mul_le_mono_nonneg_r; lia.
Qed.

Lemma above_lower_value_mono flt (m e k1 p1 k2 p2 : Z) :
  k1 * 10 ^ Z.max (p1 - p2) 0 <= k2 * 10 ^ Z.max (p2 - p1) 0 →
  above_lower flt m e k1 p1 = true → above_lower flt m e k2 p2 = true.
Proof.
  intros Hle. unfold above_lower.
  destruct (lower_bound flt m e) as [n e'].
  destruct (cmp_value_mono k1 p1 k2 p2 n e' Hle) as [Hlt Hle'].
  destruct (cmp_spec k1 p1 n e'), (cmp_spec k2 p2 n e'); try done; lia.
Qed.


Lemma below_upper_value_mono (m e k1 p1 k2 p2 : Z) :
  k2 * 10 ^ Z.max (p2 - p1) 0 <= k1 * 10 ^ Z.max (p1 - p2) 0 →
  below_upper m e k1 p1 = true → below_upper m e k2 p2 = true.
Proof.
  intros Hle. unfold below_upper.
  destruct (upper_bound m e) as [n e'].
  destruct (cmp_value_mono k2 p2 k1 p1 n e' Hle) as [Hlt Hle'].
  destruct (cmp_spec k1 p1 n e'), (cmp_spec k2 p2 n e'); try done; lia.
Qed.

(** Fewest digits: a decimal that reads back as the float has at least
    as many digits as the one [shortest] finds. *)
Lemma shortest_fewest_digits flt (m e k' p' D : Z) :
  0 < m → 0 <= D →
  reads_back flt m e k' p' = true → k' < 10 ^ D →
  fst (shortest flt m e) < 10 ^ D.
Proof.
  intros Hm HD Hrb' Hk'.
  pose proof (shortest_reads_back flt m e Hm) as Hrb.
  pose proof (shortest_coarsest flt m e) as Hco.
  destruct (shortest flt m e) as [k p]. cbn [fst snd] in *.
  destruct (Z.lt_ge_cases k (10 ^ D)) as [|Hk]; [done|]. exfalso.
  pose proof (reads_back_pos flt m e k' p' Hm Hrb') as Hk'0.
  assert (p' <= p) as Hp'.
  { destruct (Z.le_gt_cases p' p) as [|Hgt]; [done|].
    by rewrite (Hco k' p' Hm Hgt) in Hrb'. }
  destruct (decide (D = 0)) as [->|HD0]; [simpl in Hk'; lia|].
  assert (reads_back flt m e 1 (D + p) = true) as Hone.
  { apply andb_prop in Hrb as [_ Hup]. apply andb_prop in Hrb' as [Hlow _].
    unfold reads_back. apply andb_true_intro. split.
    - apply (above_lower_value_mono flt m e k' p' 1 (D + p)); [|done].
      replace (Z.max (p' - (D + p)) 0) with 0 by lia.
      replace (Z.max (D + p - p') 0) with (D + p - p') by lia.
      assert (10 ^ D <= 10 ^ (D + p - p')) by (apply Z.pow_le_mono_r; lia).
      lia.
    - apply (below_upper_value_mono m e k p 1 (D + p)); [|done].
      replace (Z.max (D + p - p) 0) with D by lia.
      replace (Z.max (p - (D + p)) 0) with 0 by lia. lia. }
  rewrite (Hco 1 (D + p) Hm) in Hone; [done|lia].
Qed.

End fewest_digits.

(** * Main theorems *)

Import Signature Bytes.

(** C1: for every non-nil parameter map, whatever the order in which the
    runtime enumerates it, the canonical string the code builds is the
    reference one: the entries whose value is nil, the empty text or of
    empty textual form dropped, the others sorted by key in byte-wise
    ascending order, rendered as [key=value] and joined with [&]; the
    empty map gives the empty string, and the two maps of the test suite
    give [a=1&d=4] and
    [action=create&timestamp=1234567890&user_id=12345]. *)
Theorem canonical_string_reference s iter params :
  enumerates iter params →
  buildSignatureString s iter params = Reference.canonical_string s params
  ∧ (params = ∅ → buildSignatureString s iter params = "")
  ∧ (params = Examples.skip_empty_and_nil →
     buildSignatureString s iter params = "a=1&d=4")
  ∧ (params = Examples.signature_format →
     buildSignatureString s iter params
     = "action=create&timestamp=1234567890&user_id=12345").
Proof.
  intros Hiter. rewrite (buildSignatureString_reference _ _ _ Hiter).
  split; [done|]. repeat split; intros ->; by vm_compute.
Qed.

Lemma canonical_string_reference_witness :
  enumerates (reverse (map_to_list Examples.skip_empty_and_nil))
             Examples.skip_empty_and_nil
  ∧ buildSignatureString (NewSigner "test")
      (reverse (map_to_list Examples.skip_empty_and_nil))
      Examples.skip_empty_and_nil = "a=1&d=4".
Proof.
  assert (enumerates (reverse (map_to_list Examples.skip_empty_and_nil))
            Examples.skip_empty_and_nil) as H
    by apply reverse_Permutation.
  split; [exact H|].
  apply (canonical_string_reference (NewSigner "test") _ _ H). reflexivity.
Defined.

(** C2: for every non-nil map and every secret, [Verify] accepts the
    signature [Sign] returns, without error, and rejects every string
    obtained from it by changing one character. *)
Theorem Verify_Sign s iter iter' params :
  enumerates iter params → enumerates iter' params →
  Verify s iter' (Some params) (fst (Sign s iter (Some params)))
  = (true, None)
  ∧ ∀ i c,
      (i < String.length (fst (Sign s iter (Some params))))%nat →
      String.get i (fst (Sign s iter (Some params))) ≠ Some c →
      Verify s iter' (Some params)
        (GoString.set_char i c (fst (Sign s iter (Some params))))
      = (false, None).
Proof.
  intros H H'. rewrite (Sign_enumeration s iter iter' params H H').
  split.
  - rewrite Verify_Some. by rewrite bool_decide_eq_true_2.
  - intros i c Hi Hc. rewrite Verify_Some.
    rewrite bool_decide_eq_false_2; [done|].
    intros Heq. by apply (set_char_neq i c _ Hi Hc).
Qed.

Lemma Verify_Sign_witness :
  Verify (NewSigner "test-secret")
    (reverse (map_to_list Examples.signature_format))
    (Some Examples.signature_format)
    (fst (Sign (NewSigner "test-secret")
            (map_to_list Examples.signature_format)
            (Some Examples.signature_format)))
  = (true, None).
Proof.
  apply (Verify_Sign (NewSigner "test-secret")
           (map_to_list Examples.signature_format)
           (reverse (map_to_list Examples.signature_format))
           Examples.signature_format).
  - unfold enumerates. reflexivity.
  - apply reverse_Permutation.
Defined.

(** C3: [Sign] fails exactly on the nil map; it succeeds on every non-nil
    map, the empty one included, which is signed over the empty canonical
    string. *)
Theorem Sign_error_iff_nil s iter :
  Sign s iter None = ("", Some "params cannot be nil")
  ∧ (∀ params, snd (Sign s iter (Some params)) = None)
  ∧ (∀ params, snd (Sign s iter params) ≠ None ↔ params = None)
  ∧ buildSignatureString s [] ∅ = ""
  ∧ Sign s [] (Some ∅)
    = (Hex.EncodeToString (Hmac.Sum (GoString.bytes (secret s)) []), None).
Proof.
  repeat split; try done.
  - by destruct params.
  - by intros ->.
Qed.

(** C4: on a non-nil map [Verify] never returns an error: a signature
    that differs from the expected one, be it of another length or not
    hexadecimal, is answered by [false]; on the nil map [Verify] returns
    the error of [Sign], and it returns an error in no other case. *)
Theorem Verify_error_iff_nil s iter :
  (∀ params signature, snd (Verify s iter (Some params) signature) = None)
  ∧ (∀ params signature,
       signature ≠ fst (Sign s iter (Some params)) →
       Verify s iter (Some params) signature = (false, None))
  ∧ (∀ params signature,
       String.length signature ≠ 64%nat →
       Verify s iter (Some params) signature = (false, None))
  ∧ (∀ params signature c,
       c ∈ GoString.chars signature → is_lower_hex c = false →
       Verify s iter (Some params) signature = (false, None))
  ∧ (∀ signature,
       Verify s iter None signature = (false, snd (Sign s iter None)))
  ∧ (∀ params signature,
       snd (Verify s iter params signature) ≠ None ↔ params = None).
Proof.
  assert (∀ params signature,
            signature ≠ fst (Sign s iter (Some params)) →
            Verify s iter (Some params) signature = (false, None)) as Hne.
  { intros params signature Hsig. rewrite Verify_Some.
    by rewrite bool_decide_eq_false_2. }
  split; [|split; [|split; [|split; [|split]]]].
  - intros params signature. by rewrite Verify_Some.
  - exact Hne.
  - intros params signature Hlen. apply Hne. intros ->.
    by rewrite Sign_length in Hlen.
  - intros params signature c Hc Hhex. apply Hne. intros ->.
    pose proof (Sign_lower_hex s iter params) as Hall.
    rewrite Forall_forall in Hall. specialize (Hall c Hc). congruence.
  - done.
  - intros [params|] signature.
    + rewrite Verify_Some. done.
    + done.
Qed.

Lemma Verify_error_iff_nil_witness :
  Verify (NewSigner "test-secret") (map_to_list Examples.signature_format)
    (Some Examples.signature_format) "invalid-signature" = (false, None).
Proof.
  apply (Verify_error_iff_nil (NewSigner "test-secret")
           (map_to_list Examples.signature_format)).
  vm_compute. discriminate.
Defined.

(** C5: for a fixed secret, two non-nil maps built from the same
    (key, value) pairs, assigned in any order and enumerated by the
    runtime in any order, have the same canonical string and the same
    signature. *)
Theorem Sign_order_independent s entries1 entries2 iter1 iter2 :
  NoDup (entries1.*1) → entries1 ≡ₚ entries2 →
  enumerates iter1 (make_map entries1) →
  enumerates iter2 (make_map entries2) →
  buildSignatureString s iter1 (make_map entries1)
  = buildSignatureString s iter2 (make_map entries2)
  ∧ Sign s iter1 (Some (make_map entries1))
    = Sign s iter2 (Some (make_map entries2)).
Proof.
  intros Hnd Hp H1 H2.
  rewrite <- (make_map_Permutation entries1 entries2 Hnd Hp) in *.
  split.
  - by apply buildSignatureString_enumeration.
  - by apply Sign_enumeration.
Qed.

Lemma Sign_order_independent_witness :
  Sign (NewSigner "test-secret")
    (map_to_list (make_map [("zebra", string_any "z");
                            ("apple", string_any "a");
                            ("mango", string_any "m")]))
    (Some (make_map [("zebra", string_any "z"); ("apple", string_any "a");
                     ("mango", string_any "m")]))
  = Sign (NewSigner "test-secret")
      (reverse (map_to_list
         (make_map (reverse [("zebra", string_any "z");
                             ("apple", string_any "a");
                             ("mango", string_any "m")]))))
      (Some (make_map (reverse [("zebra", string_any "z");
                                ("apple", string_any "a");
                                ("mango", string_any "m")]))).
Proof.
  apply (Sign_order_independent (NewSigner "test-secret")
           [("zebra", string_any "z"); ("apple", string_any "a");
            ("mango", string_any "m")]).
  - apply (bool_decide_unpack _). vm_compute. exact I.
  - symmetry. apply reverse_Permutation.
  - unfold enumerates. reflexivity.
  - apply reverse_Permutation.
Defined.

(** C6: for every non-nil map, the empty one included, the signature
    [Sign] returns is the hexadecimal encoding of a 32-byte tag: 64
    characters, each a digit or a letter from [a] to [f]. *)
Theorem Sign_format s iter params :
  String.length (fst (Sign s iter (Some params))) = 64%nat
  ∧ Forall (fun c => is_lower_hex c = true)
           (GoString.chars (fst (Sign s iter (Some params))))
  ∧ ∃ tag, length tag = 32%nat ∧ Forall is_byte tag
           ∧ fst (Sign s iter (Some params)) = Hex.EncodeToString tag.
Proof.
  split; [apply Sign_length|]. split; [apply Sign_lower_hex|].
  rewrite Sign_Some. cbn [fst]. eexists. split; [|split; [|reflexivity]].
  - apply Hmac_Sum_length.
  - apply Hmac_Sum_is_byte.
Qed.

(** C9: the canonical string is not injective: the map with the single
    entry [a] of value [1&b=2] and the map with the entries [a] of value
    [1] and [b] of value [2] are different, and have the same canonical
    string [a=1&b=2] and, under any secret, the same signature. *)
Theorem canonical_string_not_injective :
  Collision.unescaped ≠ Collision.split
  ∧ ∀ s iter iter',
      enumerates iter Collision.unescaped →
      enumerates iter' Collision.split →
      buildSignatureString s iter Collision.unescaped = "a=1&b=2"
      ∧ buildSignatureString s iter' Collision.split = "a=1&b=2"
      ∧ Sign s iter (Some Collision.unescaped)
        = Sign s iter' (Some Collision.split).
Proof.
  split.
  - intros Heq.
    assert (Collision.unescaped !! "b" = Collision.split !! "b") as Hb
      by (by rewrite Heq).
    vm_compute in Hb. discriminate Hb.
  - intros s iter iter' H H'.
    assert (buildSignatureString s iter Collision.unescaped = "a=1&b=2")
      as H1.
    { rewrite (buildSignatureString_reference _ _ _ H). by vm_compute. }
    assert (buildSignatureString s iter' Collision.split = "a=1&b=2")
      as H2.
    { rewrite (buildSignatureString_reference _ _ _ H'). by vm_compute. }
    split; [done|]. split; [done|].
    by rewrite !Sign_Some, H1, H2.
Qed.

Lemma canonical_string_not_injective_witness :
  Sign (NewSigner "k") (map_to_list Collision.unescaped)
    (Some Collision.unescaped)
  = Sign (NewSigner "k") (reverse (map_to_list Collision.split))
      (Some Collision.split).
Proof.
  apply (proj2 canonical_string_not_injective (NewSigner "k")).
  - unfold enumerates. reflexivity.
  - apply reverse_Permutation.
Defined.

(** C10: keys are not tested or changed, only values are: an entry whose
    value is not dropped has its pair [key=value] in the canonical string
    whatever its key; in particular an entry with the empty key and a
    value [v] of non-empty text contributes the pair [=v], which comes
    first, before the pairs of the other entries, and [Sign] succeeds. *)
Theorem empty_key_first s iter params v :
  enumerates iter params → params !! "" = Some v →
  valueToString s v ≠ "" →
  buildSignatureString s iter params
  = String.concat "&"
      (("=" +:+ valueToString s v)
         :: Reference.canonical_pairs s (delete "" params))
  ∧ snd (Sign s iter (Some params)) = None
  ∧ ∀ k v', params !! k = Some v' → Reference.dropped s v' = false →
      (k +:+ "=" +:+ valueToString s v') ∈ Reference.canonical_pairs s params.
Proof.
  intros Hiter Hv Hne. split; [|split; [done|]].
  - rewrite (buildSignatureString_reference _ _ _ Hiter).
    unfold Reference.canonical_string.
    by rewrite (canonical_pairs_empty_key s params v Hv (not_dropped s v Hne)).
  - intros k v'. apply canonical_pairs_elem_of.
Qed.

Lemma empty_key_first_witness :
  buildSignatureString (NewSigner "test")
    (map_to_list (make_map [("a", string_any "1"); ("", int_any 7)]))
    (make_map [("a", string_any "1"); ("", int_any 7)])
  = "=7&a=1".
Proof.
  apply (empty_key_first (NewSigner "test")
           (map_to_list (make_map [("a", string_any "1"); ("", int_any 7)]))
           (make_map [("a", string_any "1"); ("", int_any 7)])
           (int_any 7)).
  - unfold enumerates. reflexivity.
  - reflexivity.
  - vm_compute. discriminate.
Defined.

(** C8: numbers are converted to text in base 10.  An integer of any of
    the six integer types reads back, as a decimal integer without a
    superfluous zero, as itself.  A finite non-zero float is written in
    positional notation, without an exponent, as a decimal that reads back
    as the same float; no decimal with a coarser last place reads back as
    that float, and none with fewer digits: it is the shortest one.  The [float64] constant [78.9] is written [78.9],
    and the map of the test ["number conversion"] has the canonical
    string [float64=78.9&int=123&int64=456]. *)
Theorem numbers_to_text s :
  (∀ i, - 2 ^ 63 <= i < 2 ^ 63 →
     Read.integer (valueToString s (int_any i)) = Some i
     ∧ Read.integer (valueToString s (int64_any i)) = Some i)
  ∧ (∀ i, - 2 ^ 31 <= i < 2 ^ 31 →
       Read.integer (valueToString s (int32_any i)) = Some i)
  ∧ (∀ u, 0 <= u < 2 ^ 64 →
       Read.integer (valueToString s (uint_any u)) = Some u
       ∧ Read.integer (valueToString s (uint64_any u)) = Some u)
  ∧ (∀ u, 0 <= u < 2 ^ 32 →
       Read.integer (valueToString s (uint32_any u)) = Some u)
  ∧ (∀ neg m e, ∃ k p,
       ReadFixed.signed (valueToString s (float64_any (S754_finite neg m e)))
       = Some (neg, (k * 10 ^ Z.max p 0, Z.min p 0))
       ∧ Strconv.reads_back Strconv.float64info (Z.pos m) e k p = true
       ∧ (∀ k' p', p < p' →
            Strconv.reads_back Strconv.float64info (Z.pos m) e k' p' = false)
       ∧ ∀ k' p' D, 0 <= D →
           Strconv.reads_back Strconv.float64info (Z.pos m) e k' p' = true →
           k' < 10 ^ D → k < 10 ^ D)
  ∧ (∀ neg m e, ∃ k p,
       ReadFixed.signed (valueToString s (float32_any (S754_finite neg m e)))
       = Some (neg, (k * 10 ^ Z.max p 0, Z.min p 0))
       ∧ Strconv.reads_back Strconv.float32info (Z.pos m) e k p = true
       ∧ (∀ k' p', p < p' →
            Strconv.reads_back Strconv.float32info (Z.pos m) e k' p' = false)
       ∧ ∀ k' p' D, 0 <= D →
           Strconv.reads_back Strconv.float32info (Z.pos m) e k' p' = true →
           k' < 10 ^ D → k < 10 ^ D)
  ∧ (∀ neg,
       ReadFixed.signed (valueToString s (float64_any (S754_zero neg)))
       = Some (neg, (0, 0))
       ∧ ReadFixed.signed (valueToString s (float32_any (S754_zero neg)))
         = Some (neg, (0, 0)))
  ∧ Strconv.reads_back Strconv.float64info 0x13B9999999999A (-46) 789 (-1)
    = true
  ∧ valueToString s (float64_any Examples.float_78_9) = "78.9"
  ∧ ∀ iter, enumerates iter Examples.number_conversion →
      buildSignatureString s iter Examples.number_conversion
      = "float64=78.9&int=123&int64=456".
Proof.
  split; [|split; [|split; [|split; [|split; [|split; [|split; [|split;
    [|split]]]]]]]].
  - intros i Hi. split; apply integer_FormatInt; lia.
  - intros i Hi. apply integer_FormatInt. lia.
  - intros u Hu. split; apply integer_FormatUint; lia.
  - intros u Hu. apply integer_FormatUint. lia.
  - intros neg m e.
    destruct (FormatFloat_finite neg m e 64) as (k & p & Hs & H1 & H2 & H3).
    exists k, p. split; [done|]. split; [done|]. split; [done|].
    intros k' p' D HD Hrb Hk'.
    pose proof (shortest_fewest_digits (Strconv.info_of 64) (Z.pos m) e k' p' D
                  ltac:(lia) HD Hrb Hk') as Hfew.
    by rewrite Hs in Hfew.
  - intros neg m e.
    destruct (FormatFloat_finite neg m e 32) as (k & p & Hs & H1 & H2 & H3).
    exists k, p. split; [done|]. split; [done|]. split; [done|].
    intros k' p' D HD Hrb Hk'.
    pose proof (shortest_fewest_digits (Strconv.info_of 32) (Z.pos m) e k' p' D
                  ltac:(lia) HD Hrb Hk') as Hfew.
    by rewrite Hs in Hfew.
  - by intros [].
  - by vm_compute.
  - by vm_compute.
  - intros iter Hiter. rewrite (buildSignatureString_reference _ _ _ Hiter).
    by vm_compute.
Qed.

Lemma numbers_to_text_witness :
  buildSignatureString (NewSigner "test")
    (reverse (map_to_list Examples.number_conversion))
    Examples.number_conversion
  = "float64=78.9&int=123&int64=456".
Proof.
  apply (numbers_to_text (NewSigner "test")).
  apply reverse_Permutation.
Defined.

(** * Further properties of the code *)

(** ** The canonical string is a function of the texts *)

Section texts.
Import Signature Reference Texts.

Lemma kept_text_of s (kv : string * any) :
  kept s kv = true ↔ is_Some (text_of s (snd kv)).
Proof.
  unfold kept, text_of. rewrite dropped_split.
  assert (is_nil_or_empty (snd kv) = true →
          GoString.is_empty (valueToString s (snd kv)) = true) as Himp.
  { by destruct (snd kv) as [|[|??]| | | | | | | | | |]. }
  destruct (is_nil_or_empty (snd kv)) eqn:E1.
  - rewrite Himp by done. simpl. split; [done|]. by intros [].
  - simpl. destruct (GoString.is_empty _); simpl.
    + split; [done|]. by intros [].
    + split; [by eauto|done].
Qed.

Lemma lookup_texts s (params : gmap string any) k :
  texts s params !! k = params !! k ≫= text_of s.
Proof. apply lookup_omap. Qed.

Lemma pair_of_texts s (params : gmap string any) k :
  pair_of s params k = k +:+ "=" +:+ default "" (texts s params !! k).
Proof.
  unfold pair_of, index. rewrite lookup_texts.
  destruct (params !! k) as [v|]; [|done]. simpl. unfold text_of.
  destruct (GoString.is_empty (valueToString s v)) eqn:E; [|done].
  apply is_empty_true in E. by rewrite E.
Qed.

(** The keys of the pairs are the keys of the texts. *)
Lemma kept_keys_texts s (params : gmap string any) :
  (filter (fun kv => kept s kv = true) (map_to_list params)).*1
  ≡ₚ (map_to_list (texts s params)).*1.
Proof.
  apply NoDup_Permutation.
  - apply (sublist_NoDup _ ((map_to_list params).*1)).
    + apply NoDup_fst_map_to_list.
    + apply fmap_sublist, sublist_filter.
  - apply NoDup_fst_map_to_list.
  - intros k. rewrite !list_elem_of_fmap. split.
    + intros ([k' v] & -> & [Hk Hin]%list_elem_of_filter).
      apply elem_of_map_to_list in Hin.
      apply kept_text_of in Hk as [t Ht]. simpl in *.
      exists (k', t). split; [done|]. apply elem_of_map_to_list.
      by rewrite lookup_texts, Hin.
    + intros ([k' t] & -> & Hin). apply elem_of_map_to_list in Hin.
      rewrite lookup_texts in Hin.
      destruct (params !! k') as [v|] eqn:Hv; [|done]. simpl in *.
      exists (k', v). split; [done|]. apply list_elem_of_filter. split.
      * apply kept_text_of. by eexists.
      * by apply elem_of_map_to_list.
Qed.

Lemma canonical_pairs_texts s (params : gmap string any) :
  canonical_pairs s params
  = (fun k => k +:+ "=" +:+ default "" (texts s params !! k))
    <$> Sort.Strings ((map_to_list (texts s params)).*1).
Proof.
  rewrite canonical_pairs_keys.
  rewrite (Strings_unique ((map_to_list (texts s params)).*1)
             ((merge_sort key_le
                 (filter (fun kv => kept s kv = true)
                         (map_to_list params))).*1)).
  - apply list_fmap_ext. intros i k _. apply pair_of_texts.
  - apply sorted_keys_Sorted.
  - by rewrite merge_sort_Permutation, kept_keys_texts.
Qed.

Lemma canonical_string_texts s (params1 params2 : gmap string any) :
  texts s params1 = texts s params2 →
  canonical_string s params1 = canonical_string s params2.
Proof.
  intros Heq. unfold canonical_string.
  by rewrite !canonical_pairs_texts, Heq.
Qed.

End texts.

(** Maps with the same canonical string have the same signature, and
    each verifies the signature of the other. *)
Lemma Sign_of_canonical_string s iter1 iter2
    (params1 params2 : gmap string Signature.any) :
  Signature.buildSignatureString s iter1 params1
  = Signature.buildSignatureString s iter2 params2 →
  Signature.Sign s iter1 (Some params1)
  = Signature.Sign s iter2 (Some params2)
  ∧ Signature.Verify s iter2 (Some params2)
      (fst (Signature.Sign s iter1 (Some params1)))
    = (true, None).
Proof.
  intros Hstr.
  assert (Signature.Sign s iter1 (Some params1)
          = Signature.Sign s iter2 (Some params2)) as Hsig.
  { by rewrite !Sign_Some, Hstr. }
  split; [done|].
  rewrite Hsig, Verify_Some. by rewrite bool_decide_eq_true_2.
Qed.

(** X1: the signature depends on a map only through the texts of its
    values: two maps whose entries of non-empty text have the same keys
    and the same texts, whatever the types of the values, have the same
    canonical string and the same signature, and each verifies the
    signature of the other. *)
Theorem Sign_texts s iter1 iter2 params1 params2 :
  Signature.enumerates iter1 params1 →
  Signature.enumerates iter2 params2 →
  Texts.texts s params1 = Texts.texts s params2 →
  Signature.buildSignatureString s iter1 params1
  = Signature.buildSignatureString s iter2 params2
  ∧ Signature.Sign s iter1 (Some params1)
    = Signature.Sign s iter2 (Some params2)
  ∧ Signature.Verify s iter2 (Some params2)
      (fst (Signature.Sign s iter1 (Some params1)))
    = (true, None).
Proof.
  intros H1 H2 Heq.
  assert (Signature.buildSignatureString s iter1 params1
          = Signature.buildSignatureString s iter2 params2) as Hstr.
  { rewrite !buildSignatureString_reference by done.
    by apply canonical_string_texts. }
  split; [done|]. by apply Sign_of_canonical_string.
Qed.

Lemma Sign_texts_witness :
  Signature.Sign (Signature.NewSigner "test-secret")
    (map_to_list
       (Signature.make_map [("v", Signature.int_any 123);
                            ("e", Signature.string_any "");
                            ("n", Signature.nil_any)]))
    (Some (Signature.make_map [("v", Signature.int_any 123);
                               ("e", Signature.string_any "");
                               ("n", Signature.nil_any)]))
  = Signature.Sign (Signature.NewSigner "test-secret")
      (map_to_list
         (Signature.make_map [("v", Signature.string_any "123")]))
      (Some (Signature.make_map [("v", Signature.string_any "123")])).
Proof.
  apply (Sign_texts (Signature.NewSigner "test-secret")).
  - unfold Signature.enumerates. reflexivity.
  - unfold Signature.enumerates. reflexivity.
  - vm_compute. reflexivity.
Defined.

Section exclusion.
Import Signature Reference Texts.

Lemma text_of_dropped s (v : any) : dropped s v = true → text_of s v = None.
Proof.
  intros Hd. destruct (text_of s v) as [t|] eqn:Ht; [|done].
  assert (kept s ("", v) = true) as Hk by (apply kept_text_of; by eexists).
  unfold kept in Hk. simpl in Hk. by rewrite Hd in Hk.
Qed.

Lemma texts_insert_dropped s (params : gmap string any) k v :
  dropped s v = true →
  texts s (<[k:=v]> params) = texts s (delete k params).
Proof.
  intros Hd. unfold texts.
  rewrite omap_insert, (text_of_dropped s v Hd), omap_delete. done.
Qed.

End exclusion.

(** X2: an entry whose value is nil, the empty string or of empty text
    counts for nothing: the map with the entry and the map without its
    key have the same canonical string and the same signature, so a
    signature made with the entry verifies without it. *)
Theorem dropped_entry_ignored s iter iter' params k v :
  Signature.enumerates iter (<[k:=v]> params) →
  Signature.enumerates iter' (delete k params) →
  Reference.dropped s v = true →
  Signature.buildSignatureString s iter (<[k:=v]> params)
  = Signature.buildSignatureString s iter' (delete k params)
  ∧ Signature.Sign s iter (Some (<[k:=v]> params))
    = Signature.Sign s iter' (Some (delete k params))
  ∧ Signature.Verify s iter' (Some (delete k params))
      (fst (Signature.Sign s iter (Some (<[k:=v]> params))))
    = (true, None).
Proof.
  intros H H' Hd.
  assert (Signature.buildSignatureString s iter (<[k:=v]> params)
          = Signature.buildSignatureString s iter' (delete k params))
    as Hstr.
  { rewrite !buildSignatureString_reference by done.
    by apply canonical_string_texts, texts_insert_dropped. }
  split; [done|]. by apply Sign_of_canonical_string.
Qed.

Lemma dropped_entry_ignored_witness :
  Signature.Sign (Signature.NewSigner "test-secret")
    (map_to_list (<["key2" := Signature.string_any ""]>
                    (Signature.make_map
                       [("key1", Signature.string_any "value1");
                        ("key3", Signature.string_any "value3")])))
    (Some (<["key2" := Signature.string_any ""]>
             (Signature.make_map
                [("key1", Signature.string_any "value1");
                 ("key3", Signature.string_any "value3")])))
  = Signature.Sign (Signature.NewSigner "test-secret")
      (map_to_list (delete "key2"
                      (Signature.make_map
                         [("key1", Signature.string_any "value1");
                          ("key3", Signature.string_any "value3")])))
      (Some (delete "key2"
               (Signature.make_map
                  [("key1", Signature.string_any "value1");
                   ("key3", Signature.string_any "value3")]))).
Proof.
  apply (dropped_entry_ignored (Signature.NewSigner "test-secret")).
  - unfold Signature.enumerates. reflexivity.
  - unfold Signature.enumerates. reflexivity.
  - reflexivity.
Defined.

(** ** Numbers and booleans always have a text *)

Section scalars.
Import Signature Strconv.

Lemma formatBits_nonempty (fuel : nat) (u : Z) (buf : string) :
  (0 < fuel)%nat ∨ buf ≠ "" → formatBits fuel u buf ≠ "".
Proof.
  revert u buf. induction fuel as [|fuel IH]; intros u buf Hor.
  { destruct Hor; [lia|done]. }
  cbn [formatBits]. destruct (u <? 10); [done|].
  apply IH. by right.
Qed.

Lemma FormatUint_nonempty (u : Z) : FormatUint u ≠ "".
Proof. apply formatBits_nonempty. left. lia. Qed.

Lemma FormatInt_nonempty (i : Z) : FormatInt i ≠ "".
Proof.
  unfold FormatInt. destruct (i <? 0); [done|apply FormatUint_nonempty].
Qed.

Lemma string_of_list_ascii_nonempty (l : list ascii) :
  (0 < length l)%nat → String.string_of_list_ascii l ≠ "".
Proof. destruct l; simpl; [lia|done]. Qed.

(** [fmtF] always writes an integer part. *)
Lemma fmtF_nonempty (neg : bool) (ds : decimalSlice) (prec : Z) :
  fmtF neg ds prec ≠ "".
Proof.
  unfold fmtF. apply string_of_list_ascii_nonempty.
  rewrite !length_app.
  enough (0 < length (if (0 <? dp ds)%Z
                      then take (Z.to_nat (Z.min (nd ds) (dp ds))) (d ds)
                           ++ zeros (dp ds - Z.min (nd ds) (dp ds))%Z
                      else ["0"%char]))%nat by lia.
  destruct (Z.ltb_spec 0 (dp ds)) as [Hdp|Hdp]; [|simpl; lia].
  rewrite length_app, length_take. unfold zeros, nd.
  rewrite length_replicate. lia.
Qed.

Lemma FormatFloat_nonempty (x : spec_float) (bitSize : Z) :
  FormatFloat_f_shortest x bitSize ≠ "".
Proof.
  destruct x as [neg|[]| |neg m e]; try done; apply fmtF_nonempty.
Qed.

Lemma number_or_bool_text s (v : any) :
  Scalar.is_number_or_bool v = true → valueToString s v ≠ "".
Proof.
  destruct v as [| | | | | | | | | |[]|]; try done; intros _; simpl;
    auto using FormatUint_nonempty, FormatInt_nonempty,
               FormatFloat_nonempty.
Qed.

End scalars.

(** X3: a number or a boolean is never dropped, a zero, [false] and NaN
    included: its text is not empty, and whatever its key, the
    canonical string, which is the pairs joined with [&], has the pair of
    the key and the text. *)
Theorem number_or_bool_kept s iter params k v :
  Signature.enumerates iter params → params !! k = Some v →
  Scalar.is_number_or_bool v = true →
  Signature.valueToString s v ≠ ""
  ∧ Signature.buildSignatureString s iter params
    = String.concat "&" (Reference.canonical_pairs s params)
  ∧ (k +:+ "=" +:+ Signature.valueToString s v)
    ∈ Reference.canonical_pairs s params.
Proof.
  intros Hiter Hk Hv.
  pose proof (number_or_bool_text s v Hv) as Hne.
  split; [done|]. split.
  - by rewrite (buildSignatureString_reference _ _ _ Hiter).
  - apply canonical_pairs_elem_of; [done|]. by apply not_dropped.
Qed.

Lemma number_or_bool_kept_witness :
  ("count" +:+ "=" +:+
   Signature.valueToString (Signature.NewSigner "test") (Signature.int_any 0))
  ∈ Reference.canonical_pairs (Signature.NewSigner "test")
      (Signature.make_map
         [("count", Signature.int_any 0);
          ("flag", Signature.bool_any false);
          ("ratio", Signature.float64_any (S754_zero false))]).
Proof.
  apply (number_or_bool_kept (Signature.NewSigner "test")
           (map_to_list
              (Signature.make_map
                 [("count", Signature.int_any 0);
                  ("flag", Signature.bool_any false);
                  ("ratio", Signature.float64_any (S754_zero false))]))
           (Signature.make_map
              [("count", Signature.int_any 0);
               ("flag", Signature.bool_any false);
               ("ratio", Signature.float64_any (S754_zero false))])
           "count" (Signature.int_any 0)).
  - unfold Signature.enumerates. reflexivity.
  - reflexivity.
  - reflexivity.
Defined.

(** ** The secret as an HMAC key *)

Section keys.
Import Signature Bytes.

Lemma bytes_app (a b : string) :
  GoString.bytes (a +:+ b) = GoString.bytes a ++ GoString.bytes b.
Proof.
  induction a as [|c a IH]; [done|].
  rewrite app_String. simpl. by rewrite IH.
Qed.

Lemma bytes_of_bytes (b : list Z) :
  Forall is_byte b → GoString.bytes (Keys.of_bytes b) = b.
Proof.
  induction 1 as [|x b Hx Hb IH]; [done|]. simpl. rewrite IH. f_equal.
  unfold is_byte in Hx. rewrite N_ascii_embedding by lia. lia.
Qed.

(** Zero bytes at the end of a short key are those of the padding. *)
Lemma key_block_zero (key : list Z) :
  (length key < 64)%nat →
  Hmac.key_block (key ++ [0]) = Hmac.key_block key.
Proof.
  intros Hlen. unfold Hmac.key_block, Sha256.BlockSize.
  rewrite length_app. cbn [length].
  destruct (Nat.ltb_spec 64 (length key + 1)); [lia|].
  destruct (Nat.ltb_spec 64 (length key)); [lia|].
  rewrite <- app_assoc, length_app. cbn [length]. f_equal.
  replace (64 - length key)%nat with (S (64 - (length key + 1))) by lia.
  reflexivity.
Qed.

(** A long key is replaced by its digest. *)
Lemma key_block_digest (key : list Z) :
  (64 < length key)%nat →
  Hmac.key_block (Sha256.Sum256 key) = Hmac.key_block key.
Proof.
  intros Hlen. unfold Hmac.key_block, Sha256.BlockSize.
  rewrite Sum256_length. unfold Sha256.Size.
  change (64 <? 32)%nat with false. cbv iota.
  by destruct (Nat.ltb_spec 64 (length key)); [|lia].
Qed.

(** [Sign] uses the secret through its key block only. *)
Lemma Sign_key_block s1 s2 iter params :
  Hmac.key_block (GoString.bytes (secret s1))
  = Hmac.key_block (GoString.bytes (secret s2)) →
  Sign s1 iter params = Sign s2 iter params.
Proof.
  intros Hkb. destruct params as [params|]; [|done].
  rewrite !Sign_Some. unfold Hmac.Sum. rewrite Hkb. done.
Qed.

End keys.

(** X5: zero bytes at the end of a secret shorter than 64 bytes do not
    count: the secret followed by a zero byte signs every map, and fails
    on the nil map, exactly as the secret itself. *)
Theorem secret_zero_byte secret iter params :
  (String.length secret < 64)%nat →
  Signature.Sign (Signature.NewSigner (secret +:+ Keys.nul)) iter params
  = Signature.Sign (Signature.NewSigner secret) iter params.
Proof.
  intros Hlen. apply Sign_key_block.
  unfold Signature.NewSigner. cbn [Signature.secret].
  rewrite bytes_app. apply key_block_zero. by rewrite bytes_length.
Qed.

Lemma secret_zero_byte_witness :
  Signature.Sign (Signature.NewSigner ("my-secret-key" +:+ Keys.nul))
    (map_to_list Examples.signature_format) (Some Examples.signature_format)
  = Signature.Sign (Signature.NewSigner "my-secret-key")
      (map_to_list Examples.signature_format)
      (Some Examples.signature_format).
Proof.
  apply (secret_zero_byte "my-secret-key"). vm_compute. lia.
Defined.

(** X6: a secret longer than 64 bytes signs as its SHA-256 digest does:
    the 32 bytes of the digest, used as the secret, give the same
    signatures. *)
Theorem long_secret_digest secret iter params :
  (64 < String.length secret)%nat →
  Signature.Sign
    (Signature.NewSigner
       (Keys.of_bytes (Sha256.Sum256 (GoString.bytes secret))))
    iter params
  = Signature.Sign (Signature.NewSigner secret) iter params.
Proof.
  intros Hlen. apply Sign_key_block.
  unfold Signature.NewSigner. cbn [Signature.secret].
  rewrite bytes_of_bytes by apply Sum256_is_byte.
  apply key_block_digest. by rewrite bytes_length.
Qed.

Lemma long_secret_digest_witness :
  Signature.Sign
    (Signature.NewSigner
       (Keys.of_bytes
          (Sha256.Sum256
             (GoString.bytes
                "a-secret-key-that-is-longer-than-the-sixty-four-bytes-of-one-block"))))
    (map_to_list Examples.signature_format) (Some Examples.signature_format)
  = Signature.Sign
      (Signature.NewSigner
         "a-secret-key-that-is-longer-than-the-sixty-four-bytes-of-one-block")
      (map_to_list Examples.signature_format)
      (Some Examples.signature_format).
Proof.
  apply (long_secret_digest
           "a-secret-key-that-is-longer-than-the-sixty-four-bytes-of-one-block").
  vm_compute. lia.
Defined.

(** ** Without separators in keys and texts the canonical string is
    unambiguous *)

Section plain.
Import Signature Reference Texts Plain.

Lemma occurs_app (c : ascii) (a b : string) :
  occurs c (a +:+ b) = occurs c a || occurs c b.
Proof.
  induction a as [|x a IH]; [done|].
  rewrite app_String. simpl. by rewrite IH, orb_assoc.
Qed.

(** The text before the first [c] and the text after it. *)
Lemma split_unique (c : ascii) (a b x y : string) :
  occurs c a = false → occurs c b = false →
  a +:+ String c x = b +:+ String c y → a = b ∧ x = y.
Proof.
  revert b. induction a as [|a0 a IH]; intros [|b0 b] Ha Hb Heq.
  - by injection Heq as ->.
  - rewrite app_String in Heq. injection Heq as <- _.
    simpl in Hb. by rewrite Ascii.eqb_refl in Hb.
  - rewrite app_String in Heq. injection Heq as -> _.
    simpl in Ha. by rewrite Ascii.eqb_refl in Ha.
  - rewrite !app_String in Heq. injection Heq as -> Heq.
    simpl in Ha, Hb.
    apply orb_false_elim in Ha as [_ Ha].
    apply orb_false_elim in Hb as [_ Hb].
    destruct (IH b Ha Hb Heq) as [-> ->]. done.
Qed.

Lemma concat_cons2 (p q : string) (l : list string) :
  String.concat "&" (p :: q :: l)
  = p +:+ String "&" (String.concat "&" (q :: l)).
Proof. reflexivity. Qed.

(** Joining with [&] loses nothing when no part is empty or has an
    [&]. *)
Lemma concat_amp_inj (l1 l2 : list string) :
  Forall (fun p => p ≠ "" ∧ occurs "&" p = false) l1 →
  Forall (fun p => p ≠ "" ∧ occurs "&" p = false) l2 →
  String.concat "&" l1 = String.concat "&" l2 → l1 = l2.
Proof.
  intros H1. revert l2.
  induction H1 as [|p1 l1 [Hne1 Hp1] Hl1 IH]; intros l2 H2 Heq.
  { destruct H2 as [|p2 l2 [Hne2 _] _]; [done|].
    destruct l2; simpl in Heq; [congruence|].
    destruct p2; [done|]. by rewrite app_String in Heq. }
  destruct H2 as [|p2 l2 [Hne2 Hp2] Hl2].
  { destruct l1; simpl in Heq; [congruence|].
    destruct p1; [done|]. by rewrite app_String in Heq. }
  destruct l1 as [|q1 l1], l2 as [|q2 l2].
  - simpl in Heq. by rewrite Heq.
  - rewrite concat_cons2 in Heq. simpl in Heq. rewrite Heq in Hp1.
    rewrite occurs_app in Hp1. simpl in Hp1.
    by rewrite orb_true_r in Hp1.
  - rewrite concat_cons2 in Heq. simpl in Heq. rewrite <- Heq in Hp2.
    rewrite occurs_app in Hp2. simpl in Hp2.
    by rewrite orb_true_r in Hp2.
  - rewrite !concat_cons2 in Heq.
    destruct (split_unique "&" p1 p2 _ _ Hp1 Hp2 Heq) as [-> Hrest].
    f_equal. by apply IH.
Qed.


Lemma canonical_pairs_sorted_texts s (params : gmap string any) :
  canonical_pairs s params
  = (fun kt => fst kt +:+ "=" +:+ snd kt) <$> sorted_texts s params.
Proof.
  rewrite canonical_pairs_texts. unfold sorted_texts.
  by rewrite <- list_fmap_compose.
Qed.

Lemma sorted_texts_Permutation s (params : gmap string any) :
  sorted_texts s params ≡ₚ map_to_list (texts s params).
Proof.
  unfold sorted_texts. rewrite Strings_Permutation.
  rewrite <- list_fmap_compose. apply reflexive_eq.
  rewrite <- (list_fmap_id (map_to_list (texts s params))) at 2.
  apply list_fmap_ext. intros i [k t] Hi. simpl.
  apply list_elem_of_lookup_2, elem_of_map_to_list in Hi.
  by rewrite Hi.
Qed.

Lemma texts_of_sorted_texts s (params1 params2 : gmap string any) :
  sorted_texts s params1 = sorted_texts s params2 →
  texts s params1 = texts s params2.
Proof.
  intros Heq.
  rewrite <- (list_to_map_to_list (texts s params1)).
  rewrite <- (list_to_map_to_list (texts s params2)).
  apply list_to_map_proper; [apply NoDup_fst_map_to_list|].
  by rewrite <- !sorted_texts_Permutation, Heq.
Qed.

Lemma sorted_texts_plain s iter (params : gmap string any) :
  enumerates iter params →
  Forall (fun kv => plain s kv = true) iter →
  Forall (fun kt => occurs "=" (fst kt) = false
                    ∧ occurs "&" (fst kt) = false
                    ∧ occurs "&" (snd kt) = false)
         (sorted_texts s params).
Proof.
  intros Hiter Hplain. apply Forall_forall. intros [k t] Hkt.
  rewrite sorted_texts_Permutation in Hkt.
  apply elem_of_map_to_list in Hkt. rewrite lookup_texts in Hkt.
  destruct (params !! k) as [v|] eqn:Hv; [|done]. simpl in Hkt.
  assert ((k, v) ∈ iter) as Hin.
  { rewrite Hiter. by apply elem_of_map_to_list. }
  apply (proj1 (Forall_forall _ _) Hplain) in Hin.
  assert (kept s (k, v) = true) as Hk by (apply kept_text_of; by eexists).
  unfold kept in Hk. apply negb_true_iff in Hk. simpl in Hk.
  unfold plain in Hin. simpl in Hin. rewrite Hk in Hin. simpl in Hin.
  apply andb_prop in Hin as [[H1 H2]%andb_prop H3].
  apply negb_true_iff in H1, H2, H3.
  unfold text_of in Hkt.
  destruct (GoString.is_empty (valueToString s v)); [done|].
  injection Hkt as <-. done.
Qed.

(** A pair [key=text] is read back when the key has no [=]. *)
Lemma pairs_inj (l1 l2 : list (string * string)) :
  Forall (fun kt => occurs "=" (fst kt) = false) l1 →
  Forall (fun kt => occurs "=" (fst kt) = false) l2 →
  (fun kt => fst kt +:+ "=" +:+ snd kt) <$> l1
  = (fun kt => fst kt +:+ "=" +:+ snd kt) <$> l2 →
  l1 = l2.
Proof.
  intros H1. revert l2.
  induction H1 as [|[k1 t1] l1 Hk1 Hl1 IH]; intros l2 H2 Heq.
  { by destruct l2. }
  destruct H2 as [|[k2 t2] l2 Hk2 Hl2]; [done|].
  injection Heq as Hp Hrest. simpl in *.
  destruct (split_unique "=" k1 k2 t1 t2 Hk1 Hk2 Hp) as [-> ->].
  f_equal. by apply IH.
Qed.

Lemma forallb_Forall {A} (f : A → bool) (l : list A) :
  forallb f l = true → Forall (fun x => f x = true) l.
Proof.
  intros H. apply Forall_forall. intros x Hx.
  apply (proj1 (forallb_forall f l) H). by apply list_elem_of_In.
Qed.

Lemma canonical_string_plain_inj s iter1 iter2
    (params1 params2 : gmap string any) :
  enumerates iter1 params1 → enumerates iter2 params2 →
  Forall (fun kv => plain s kv = true) iter1 →
  Forall (fun kv => plain s kv = true) iter2 →
  canonical_string s params1 = canonical_string s params2 →
  sorted_texts s params1 = sorted_texts s params2.
Proof.
  intros Hi1 Hi2 Hp1 Hp2 Heq. unfold canonical_string in Heq.
  rewrite !canonical_pairs_sorted_texts in Heq.
  pose proof (sorted_texts_plain s iter1 params1 Hi1 Hp1) as Hs1.
  pose proof (sorted_texts_plain s iter2 params2 Hi2 Hp2) as Hs2.
  apply concat_amp_inj in Heq.
  - apply pairs_inj; [| |done].
    + eapply Forall_impl; [exact Hs1|]. by intros ? [? _].
    + eapply Forall_impl; [exact Hs2|]. by intros ? [? _].
  - apply Forall_fmap. eapply Forall_impl; [exact Hs1|].
    intros [k t] (H1 & H2 & H3). simpl in *. split.
    + destruct k; [done|]. by rewrite app_String.
    + rewrite !occurs_app. simpl. by rewrite H2, H3.
  - apply Forall_fmap. eapply Forall_impl; [exact Hs2|].
    intros [k t] (H1 & H2 & H3). simpl in *. split.
    + destruct k; [done|]. by rewrite app_String.
    + rewrite !occurs_app. simpl. by rewrite H2, H3.
Qed.

End plain.

(** X4: when no key has a [=] or an [&] and no text has an [&], the
    canonical string tells the entries: two such maps with the same
    canonical string have the same keys with the same texts, in the same
    sorted order. *)
Theorem canonical_string_plain_injective s iter1 iter2 params1 params2 :
  Signature.enumerates iter1 params1 →
  Signature.enumerates iter2 params2 →
  forallb (Plain.plain s) iter1 = true →
  forallb (Plain.plain s) iter2 = true →
  Signature.buildSignatureString s iter1 params1
  = Signature.buildSignatureString s iter2 params2 →
  Plain.sorted_texts s params1 = Plain.sorted_texts s params2
  ∧ Texts.texts s params1 = Texts.texts s params2.
Proof.
  intros Hi1 Hi2 Hp1 Hp2 Heq.
  rewrite !buildSignatureString_reference in Heq by done.
  apply forallb_Forall in Hp1, Hp2.
  pose proof (canonical_string_plain_inj s iter1 iter2 params1 params2
                Hi1 Hi2 Hp1 Hp2 Heq) as Hst.
  split; [done|]. by apply texts_of_sorted_texts.
Qed.

Lemma canonical_string_plain_injective_witness :
  Texts.texts (Signature.NewSigner "test")
    (Signature.make_map [("user", Signature.int_any 5);
                         ("query", Signature.string_any "x=y")])
  = Texts.texts (Signature.NewSigner "test")
      (Signature.make_map [("query", Signature.string_any "x=y");
                           ("user", Signature.string_any "5");
                           ("page", Signature.nil_any)]).
Proof.
  apply (canonical_string_plain_injective (Signature.NewSigner "test")
           (map_to_list
              (Signature.make_map [("user", Signature.int_any 5);
                                   ("query", Signature.string_any "x=y")]))
           (map_to_list
              (Signature.make_map [("query", Signature.string_any "x=y");
                                   ("user", Signature.string_any "5");
                                   ("page", Signature.nil_any)]))).
  - unfold Signature.enumerates. reflexivity.
  - unfold Signature.enumerates. reflexivity.
  - vm_compute. reflexivity.
  - vm_compute. reflexivity.
  - vm_compute. reflexivity.
Defined.

Section atoi.

Lemma digit_digit_value (c : ascii) (d : Z) :
  Read.digit_value c = Some d →
  Atoi.digit (Z.of_N (N_of_ascii c)) = Some d ∧ 0 <= d < 10.
Proof.
  unfold Read.digit_value, Atoi.digit. cbv zeta.
  destruct (_ && _) eqn:Hc; [|done]. intros [= <-]. split; [done|].
  apply andb_prop in Hc as [H1 H2].
  apply Z.leb_le in H1, H2. lia.
Qed.

Lemma digits_lower_bound (s : string) (n u : Z) :
  0 <= n → Read.digits n s = Some u → n <= u.
Proof.
  revert n. induction s as [|c s IH]; intros n Hn; simpl.
  - intros [= <-]. lia.
  - destruct (Read.digit_value c) as [d|] eqn:Hd; [|done].
    apply digit_digit_value in Hd as [_ Hd]. intros Hu.
    apply IH in Hu; lia.
Qed.

(** On digits that denote a 64-bit value the loop neither fails nor wraps
    around. *)
Lemma parse_loop_digits (s : string) (n u : Z) :
  0 <= n → Read.digits n s = Some u → u < 2 ^ 64 →
  Atoi.parse_loop n s = (u, None).
Proof.
  revert n. induction s as [|c s IH]; intros n Hn; simpl.
  - by intros [= <-].
  - destruct (Read.digit_value c) as [d|] eqn:Hd; [|done].
    apply digit_digit_value in Hd as [-> Hd]. intros Hu Hmax.
    assert (0 <= 10 * n + d) as Hacc by lia.
    pose proof (digits_lower_bound _ _ _ Hacc Hu) as Hlow.
    unfold Atoi.maxUint64.
    change (2 ^ 64) with 18446744073709551616 in *.
    change ((18446744073709551616 - 1) / 10 + 1) with 1844674407370955162.
    destruct (Z.leb_spec 10 d); [lia|].
    destruct (Z.leb_spec 1844674407370955162 n); [lia|].
    rewrite (Z.mod_small (n * 10)) by lia.
    rewrite (Z.mod_small (n * 10 + d)) by lia.
    destruct (Z.ltb_spec (n * 10 + d) (n * 10)); [lia|].
    destruct (Z.ltb_spec (18446744073709551616 - 1) (n * 10 + d)); [lia|].
    cbn [orb]. apply IH; [lia| |lia].
    by replace (n * 10 + d) with (10 * n + d) by lia.
Qed.

Lemma ParseUint_FormatUint (u : Z) :
  0 <= u < 2 ^ 64 → Atoi.ParseUint (Strconv.FormatUint u) = (u, None).
Proof.
  intros Hu. pose proof (natural_FormatUint u Hu) as Hnat.
  unfold Atoi.ParseUint.
  destruct (Strconv.FormatUint u) as [|c s] eqn:Heq; [done|].
  cbn [GoString.is_empty].
  apply parse_loop_digits; [lia| |lia].
  unfold Read.natural in Hnat.
  destruct c as [[] [] [] [] [] [] [] []]; try done;
    destruct s; done.
Qed.

Lemma int64_small (x : Z) : - 2 ^ 63 <= x < 2 ^ 63 → Atoi.int64 x = x.
Proof.
  intros Hx. unfold Atoi.int64.
  change (2 ^ 63) with 9223372036854775808 in *.
  change (2 ^ 64) with 18446744073709551616.
  rewrite Z.mod_small; lia.
Qed.

Lemma int64_min : Atoi.int64 (2 ^ 63) = - 2 ^ 63.
Proof. reflexivity. Qed.

Lemma FormatUint_first (u : Z) :
  0 <= u < 2 ^ 64 →
  ∃ c rest, Strconv.FormatUint u = String c rest
            ∧ Ascii.eqb c "+" = false ∧ Ascii.eqb c "-" = false.
Proof.
  intros Hu. pose proof (natural_FormatUint u Hu) as Hnat.
  destruct (Strconv.FormatUint u) as [|c rest]; [done|].
  exists c, rest. split; [done|].
  unfold Read.natural in Hnat.
  destruct c as [[] [] [] [] [] [] [] []]; try done;
    destruct rest; done.
Qed.

(** [ParseInt] reads back what [FormatInt] writes, the smallest 64-bit
    integer included. *)
Lemma ParseInt_FormatInt (i : Z) :
  - 2 ^ 63 <= i < 2 ^ 63 →
  Atoi.ParseInt (Strconv.FormatInt i) = (i, None).
Proof.
  intros Hi. unfold Strconv.FormatInt.
  destruct (Z.ltb_spec i 0) as [Hneg|Hpos].
  - unfold Atoi.ParseInt. cbn [Ascii.eqb Bool.eqb].
    rewrite ParseUint_FormatUint by lia.
    cbn [negb andb].
    destruct (Z.ltb_spec (2 ^ 63) (- i)) as [?|Hle]; [lia|].
    f_equal. destruct (decide (i = - 2 ^ 63)) as [->|Hne].
    + reflexivity.
    + rewrite (int64_small (- i)) by lia.
      rewrite Z.opp_involutive. apply int64_small. lia.
  - destruct (FormatUint_first i) as (c & rest & Heq & Hplus & Hminus);
      [lia|].
    pose proof (ParseUint_FormatUint i ltac:(lia)) as Hparse.
    rewrite Heq in *. unfold Atoi.ParseInt.
    rewrite Hplus, Hminus, Hparse. cbn [negb andb].
    destruct (Z.leb_spec (2 ^ 63) i) as [?|Hlt]; [lia|].
    f_equal. apply int64_small. lia.
Qed.

End atoi.

Section api_example.
Import Signature ApiExample.

Lemma request_timestamp (now : Z) :
  request now !! "timestamp" = Some (string_any (Strconv.FormatInt now)).
Proof. unfold request, make_map. cbn [fold_left fst snd]. by simplify_map_eq. Qed.

End api_example.

(** X7: the example request is accepted unless it is too old.  Whatever
    the clock reads and in whatever orders the map is ranged over,
    [apiRequestExample] signs the request without an error, reads the
    seconds it wrote into the timestamp back unchanged, and reports the
    request as too old when the age of these seconds exceeds five
    minutes and as accepted otherwise; it never reports an invalid
    signature and never stops with an error. *)
Theorem apiRequestExample_outcome (now : Z) (since : Z → Z)
    (iter1 iter2 : list (string * Signature.any)) :
  - 2 ^ 63 <= now < 2 ^ 63 →
  Signature.enumerates iter1 (ApiExample.request now) →
  Signature.enumerates iter2 (ApiExample.request now) →
  ApiExample.apiRequestExample now since iter1 iter2
  = if 5 * ApiExample.Minute <? since now
    then ApiExample.too_old else ApiExample.accepted.
Proof.
  intros Hnow H1 H2. unfold ApiExample.apiRequestExample.
  rewrite Sign_Some, request_timestamp. cbn [ApiExample.assert_string].
  rewrite ParseInt_FormatInt by done.
  destruct (5 * ApiExample.Minute <? since now); [done|].
  rewrite Verify_Some, bool_decide_eq_true_2; [done|].
  rewrite (Sign_enumeration _ iter2 iter1) by done. by rewrite Sign_Some.
Qed.

Lemma apiRequestExample_outcome_witness :
  ApiExample.apiRequestExample 1700000000
    (fun ts => (1700000010 - ts) * ApiExample.Second)
    (map_to_list (ApiExample.request 1700000000))
    (reverse (map_to_list (ApiExample.request 1700000000)))
  = ApiExample.accepted.
Proof.
  apply (apiRequestExample_outcome 1700000000
           (fun ts => (1700000010 - ts) * ApiExample.Second)).
  - lia.
  - unfold Signature.enumerates. reflexivity.
  - unfold Signature.enumerates. apply reverse_Permutation.
Defined.

(** ** Whole numbers held in a float *)

Section numerals.

Lemma digit_value_inj (c1 c2 : ascii) (d : Z) :
  Read.digit_value c1 = Some d → Read.digit_value c2 = Some d → c1 = c2.
Proof.
  unfold Read.digit_value. cbv zeta.
  destruct (_ && _); [|done]. destruct (_ && _); [|done].
  intros [= H1] [= H2].
  rewrite <- (ascii_N_embedding c1), <- (ascii_N_embedding c2).
  f_equal. lia.
Qed.

Lemma digit_value_range (c : ascii) (d : Z) :
  Read.digit_value c = Some d → 0 <= d < 10.
Proof.
  unfold Read.digit_value. cbv zeta.
  destruct (_ && _) eqn:Hc; [|done]. intros [= <-].
  apply andb_prop in Hc as [H1 H2]. apply Z.leb_le in H1, H2. lia.
Qed.


(** The number of a digit string lies between the numbers of the string
    continued with zeros and with nines. *)
Lemma digits_bounds (s : string) (acc u : Z) :
  0 <= acc → Read.digits acc s = Some u →
  acc * 10 ^ Z.of_nat (String.length s) <= u
  < (acc + 1) * 10 ^ Z.of_nat (String.length s).
Proof.
  revert acc. induction s as [|c s IH]; intros acc Hacc.
  - simpl. intros [= <-]. lia.
  - cbn [Read.digits String.length].
    destruct (Read.digit_value c) as [d|] eqn:Hd; [|done].
    pose proof (digit_value_range _ _ Hd). intros Hu.
    apply IH in Hu; [|lia].
    rewrite Nat2Z.inj_succ, Z.pow_succ_r by lia.
    pose proof (Z.pow_pos_nonneg 10 (Z.of_nat (String.length s))
                  ltac:(lia) ltac:(lia)).
    nia.
Qed.

(** A natural has as many digits as its number asks for. *)
Lemma natural_size (s : string) (n : Z) :
  Read.natural s = Some n →
  (n = 0 ∧ s = "0")
  ∨ (10 ^ (Z.of_nat (String.length s) - 1) <= n
     < 10 ^ Z.of_nat (String.length s)
     ∧ Read.digits 0 s = Some n).
Proof.
  destruct s as [|c s]; [done|]. intros Hnat.
  assert (Read.digits 0 (String c s) = Some n) as Hdig.
  { unfold Read.natural in Hnat.
    destruct c as [[] [] [] [] [] [] [] []]; try done; destruct s; done. }
  destruct (decide (c = "0"%char)) as [->|Hc].
  - destruct s; [|done]. left. simpl in Hdig. by injection Hdig as <-.
  - right. split; [|done]. cbn [Read.digits] in Hdig.
    destruct (Read.digit_value c) as [d|] eqn:Hd; [|done].
    pose proof (digit_value_range _ _ Hd).
    assert (d ≠ 0) as Hd0.
    { intros ->. apply Hc. by apply (digit_value_inj _ _ 0). }
    apply digits_bounds in Hdig; [|lia].
    cbn [String.length]. rewrite Nat2Z.inj_succ.
    replace (Z.succ (Z.of_nat (String.length s)) - 1)
      with (Z.of_nat (String.length s)) by lia.
    rewrite Z.pow_succ_r by lia.
    pose proof (Z.pow_pos_nonneg 10 (Z.of_nat (String.length s))
                  ltac:(lia) ltac:(lia)).
    nia.
Qed.


End numerals.

Section whole_numbers.
Import Strconv.



Lemma signed_cases (s : string) :
  (∃ s', s = String "-" s'
         ∧ ReadFixed.signed s = pair true <$> ReadFixed.unsigned s')
  ∨ ReadFixed.signed s = pair false <$> ReadFixed.unsigned s.
Proof.
  destruct s as [|c s]; [by right|].
  destruct (decide (c = "-"%char)) as [->|Hc]; [left; by eexists|].
  right. destruct c as [[] [] [] [] [] [] [] []]; done.
Qed.










End whole_numbers.



(** ** The text of a number has no separator *)

Section separators.
Import Signature.

Lemma digits_occurs (c : ascii) (s : string) (acc u : Z) :
  Read.digit_value c = None → Read.digits acc s = Some u →
  Plain.occurs c s = false.
Proof.
  intros Hc. revert acc. induction s as [|a s IH]; intros acc; [done|].
  cbn [Read.digits Plain.occurs].
  destruct (Read.digit_value a) as [d|] eqn:Ha; [|done]. intros Hu.
  rewrite (IH _ Hu), orb_false_r. apply Ascii.eqb_neq. congruence.
Qed.

Lemma natural_occurs (c : ascii) (s : string) (n : Z) :
  Read.digit_value c = None → Read.natural s = Some n →
  Plain.occurs c s = false.
Proof.
  intros Hc Hn. destruct (natural_size _ _ Hn) as [[_ ->]|[_ Hd]].
  - cbn [Plain.occurs]. rewrite orb_false_r. apply Ascii.eqb_neq.
    intros <-. done.
  - by apply (digits_occurs c s 0 n).
Qed.

Lemma integer_occurs (c : ascii) (s : string) (i : Z) :
  Read.digit_value c = None → c ≠ "-"%char → Read.integer s = Some i →
  Plain.occurs c s = false.
Proof.
  intros Hc Hm Hi.
  assert ((∃ s', s = String "-" s' ∧ is_Some (Read.natural s'))
          ∨ is_Some (Read.natural s)) as [(s' & -> & [n Hn])|[n Hn]].
  { destruct s as [|a s]; [done|].
    destruct (decide (a = "-"%char)) as [->|Ha].
    - left. exists s. split; [done|]. cbn [Read.integer] in Hi.
      by destruct (Read.natural s); [eexists|].
    - right. exists i. rewrite <- Hi. unfold Read.integer.
      destruct a as [[] [] [] [] [] [] [] []]; done. }
  - cbn [Plain.occurs]. rewrite (natural_occurs c s' n) by done.
    rewrite orb_false_r. apply Ascii.eqb_neq. congruence.
  - by apply (natural_occurs c s n).
Qed.

Lemma split_point_parts (s ip : string) (fp : option string) :
  ReadFixed.split_point s = (ip, fp) →
  s = ip +:+ match fp with Some f => String "." f | None => "" end.
Proof.
  revert ip. induction s as [|a s IH]; intros ip; simpl.
  - by intros [= <- <-].
  - destruct (Ascii.eqb_spec a ".") as [->|Ha].
    + by intros [= <- <-].
    + destruct (ReadFixed.split_point s) as [ip' fp'].
      intros [= <- <-]. rewrite app_String. f_equal. by apply IH.
Qed.

Lemma unsigned_occurs (c : ascii) (s : string) (x : Z * Z) :
  Read.digit_value c = None → c ≠ "."%char →
  ReadFixed.unsigned s = Some x → Plain.occurs c s = false.
Proof.
  intros Hc Hp. unfold ReadFixed.unsigned.
  destruct (ReadFixed.split_point s) as [ip fp] eqn:Hsp.
  rewrite (split_point_parts _ _ _ Hsp), occurs_app.
  destruct (Read.natural ip) as [i|] eqn:Hnat; [|done].
  rewrite (natural_occurs c ip i) by done.
  destruct fp as [f|]; [|done].
  destruct (GoString.is_empty f); [done|].
  destruct (Read.digits i f) as [k|] eqn:Hf; [|done]. intros _.
  cbn [Plain.occurs orb]. rewrite (digits_occurs c f i k) by done.
  rewrite orb_false_r. apply Ascii.eqb_neq. congruence.
Qed.

Lemma signed_occurs (c : ascii) (s : string) (x : bool * (Z * Z)) :
  Read.digit_value c = None → c ≠ "."%char → c ≠ "-"%char →
  ReadFixed.signed s = Some x → Plain.occurs c s = false.
Proof.
  intros Hc Hp Hm Hs.
  destruct (signed_cases s) as [(s' & -> & E)|E]; rewrite E in Hs;
    apply fmap_Some in Hs as (y & Hu & _).
  - cbn [Plain.occurs]. rewrite (unsigned_occurs c s' y) by done.
    rewrite orb_false_r. apply Ascii.eqb_neq. congruence.
  - by apply (unsigned_occurs c s y).
Qed.

Lemma FormatFloat_occurs (c : ascii) (x : spec_float) (bitSize : Z) :
  c = "&"%char ∨ c = "="%char →
  Plain.occurs c (Strconv.FormatFloat_f_shortest x bitSize) = false.
Proof.
  intros Hc.
  assert (Read.digit_value c = None ∧ c ≠ "."%char ∧ c ≠ "-"%char)
    as (Hd & Hp & Hm) by (by destruct Hc as [->| ->]).
  destruct x as [neg|neg| |neg m e].
  - by destruct neg, Hc as [->| ->].
  - by destruct neg, Hc as [->| ->].
  - by destruct Hc as [->| ->].
  - destruct (FormatFloat_finite neg m e bitSize) as (k & p & _ & Hr & _).
    by apply (signed_occurs c _ _ Hd Hp Hm Hr).
Qed.

Lemma number_occurs s (c : ascii) (v : any) :
  c = "&"%char ∨ c = "="%char →
  Scalar.is_number_or_bool v = true → Ranges.in_range v = true →
  Plain.occurs c (valueToString s v) = false.
Proof.
  intros Hc Hnum Hrange.
  assert (Read.digit_value c = None ∧ c ≠ "-"%char)
    as (Hd & Hm) by (by destruct Hc as [->| ->]).
  destruct v as [| |i|i|i|u|u|u|x|x|b|]; try done;
    cbn [valueToString Ranges.in_range] in *;
    try (apply andb_prop in Hrange as [Hlo Hhi];
         apply Z.leb_le in Hlo; apply Z.ltb_lt in Hhi).
  - apply (integer_occurs c _ i Hd Hm), integer_FormatInt. lia.
  - apply (integer_occurs c _ i Hd Hm), integer_FormatInt. lia.
  - apply (integer_occurs c _ i Hd Hm), integer_FormatInt. lia.
  - apply (integer_occurs c _ u Hd Hm), integer_FormatUint. lia.
  - apply (integer_occurs c _ u Hd Hm), integer_FormatUint. lia.
  - apply (integer_occurs c _ u Hd Hm), integer_FormatUint. lia.
  - by apply FormatFloat_occurs.
  - by apply FormatFloat_occurs.
  - by destruct b, Hc as [->| ->].
Qed.

End separators.

(** X9: a number or a boolean brings no separator into the canonical
    string.  The text of a value of one of the integer types, of a float,
    the infinities and NaN included, or of a boolean has neither [&] nor
    [=]; so whether the entry is one that cannot be confused with others
    depends on its key alone. *)
Theorem number_text_no_separator s (key : string) (v : Signature.any) :
  Scalar.is_number_or_bool v = true → Ranges.in_range v = true →
  Plain.occurs "&" (Signature.valueToString s v) = false
  ∧ Plain.occurs "=" (Signature.valueToString s v) = false
  ∧ Plain.plain s (key, v)
    = negb (Plain.occurs "=" key) && negb (Plain.occurs "&" key).
Proof.
  intros Hnum Hrange.
  assert (Plain.occurs "&" (Signature.valueToString s v) = false) as Hamp.
  { apply number_occurs; auto. }
  split; [done|]. split; [apply number_occurs; auto|].
  unfold Plain.plain. cbn [fst snd]. rewrite Hamp.
  assert (Reference.dropped s v = false) as ->.
  { pose proof (number_or_bool_text s v Hnum) as Hne.
    destruct (Reference.dropped s v) eqn:Hd; [|done].
    destruct v as [| | | | | | | | | | |]; try done;
      cbn [Reference.dropped] in Hd; by apply is_empty_true in Hd. }
  cbn [orb negb]. by rewrite andb_true_r.
Qed.

Lemma number_text_no_separator_witness :
  Plain.occurs "&"
    (Signature.valueToString (Signature.NewSigner "test-secret")
       (Signature.float64_any Examples.float_78_9)) = false.
Proof.
  apply (number_text_no_separator (Signature.NewSigner "test-secret")
           "float64" (Signature.float64_any Examples.float_78_9)).
  - reflexivity.
  - reflexivity.
Defined.

(** ** The test of the first loop *)

(** X10: the test of the first loop never decides anything.  Every value
    it skips, nil or the empty string, has an empty text, which the
    second loop skips as well: sorting the keys of all the entries and
    leaving the skipping to the second loop alone gives the same
    canonical string. *)
Theorem first_test_subsumed s iter (params : gmap string Signature.any) :
  Signature.enumerates iter params →
  Signature.buildSignatureString s iter params
  = Signature.join_pairs
      (Signature.build_pairs s params (Sort.Strings (iter.*1))).
Proof.
  intros Hiter. unfold Signature.buildSignatureString.
  rewrite !build_pairs_filter. do 2 f_equal.
  apply (Sorted_unique Reference.le).
  - apply StronglySorted_Sorted, StronglySorted_filter.
    apply Sorted_StronglySorted; [apply _|]. apply Strings_Sorted.
  - apply StronglySorted_Sorted, StronglySorted_filter.
    apply Sorted_StronglySorted; [apply _|]. apply Strings_Sorted.
  - rewrite !Strings_Permutation. apply reflexive_eq.
    rewrite collect_keys_filter, !filter_fmap_fst, list_filter_filter.
    f_equal. apply filter_ext_elem_of. intros [k v] Hkv. cbn [fst snd].
    rewrite Hiter in Hkv.
    unfold Reference.converts.
    rewrite (index_enumerated _ _ _ Hkv).
    split; [tauto|]. intros Hc. split; [done|].
    destruct v as [|[|??]| | | | | | | | | |]; done.
Qed.

Lemma first_test_subsumed_witness :
  Signature.buildSignatureString (Signature.NewSigner "test")
    (map_to_list Examples.skip_empty_and_nil) Examples.skip_empty_and_nil
  = Signature.join_pairs
      (Signature.build_pairs (Signature.NewSigner "test")
         Examples.skip_empty_and_nil
         (Sort.Strings ((map_to_list Examples.skip_empty_and_nil).*1))).
Proof.
  apply (first_test_subsumed (Signature.NewSigner "test")).
  unfold Signature.enumerates. reflexivity.
Defined.

(** ** Comparing the hexadecimal texts compares the tags *)

Section hex.

Lemma hexdigit_inj (a b : Z) :
  0 <= a < 16 → 0 <= b < 16 → Hex.hexdigit a = Hex.hexdigit b → a = b.
Proof.
  intros Ha Hb.
  assert (a = 0 ∨ a = 1 ∨ a = 2 ∨ a = 3 ∨ a = 4 ∨ a = 5 ∨ a = 6 ∨ a = 7
          ∨ a = 8 ∨ a = 9 ∨ a = 10 ∨ a = 11 ∨ a = 12 ∨ a = 13 ∨ a = 14
          ∨ a = 15) as Ha' by lia.
  assert (b = 0 ∨ b = 1 ∨ b = 2 ∨ b = 3 ∨ b = 4 ∨ b = 5 ∨ b = 6 ∨ b = 7
          ∨ b = 8 ∨ b = 9 ∨ b = 10 ∨ b = 11 ∨ b = 12 ∨ b = 13 ∨ b = 14
          ∨ b = 15) as Hb' by lia.
  clear Ha Hb.
  repeat (destruct Ha' as [->|Ha']); try subst a;
    repeat (destruct Hb' as [->|Hb']); try subst b;
    first [reflexivity | by intros [=]].
Qed.

(** [hex.EncodeToString] loses nothing. *)
Lemma EncodeToString_inj (x y : list Z) :
  Forall Bytes.is_byte x → Forall Bytes.is_byte y →
  Hex.EncodeToString x = Hex.EncodeToString y → x = y.
Proof.
  intros Hx. revert y.
  induction Hx as [|a x Ha Hx IH]; intros y Hy; destruct Hy as [|b y Hb Hy];
    try done.
  cbn [Hex.EncodeToString]. intros [= Hhi Hlo Hrest].
  unfold Bytes.is_byte in Ha, Hb.
  rewrite !Z.shiftr_div_pow2 in Hhi by lia.
  change (2 ^ 4) with 16 in Hhi.
  change 15 with (Z.ones 4) in Hlo. rewrite !Z.land_ones in Hlo by lia.
  change (2 ^ 4) with 16 in Hlo.
  pose proof (Z.div_mod a 16 ltac:(lia)) as Hdiva.
  pose proof (Z.div_mod b 16 ltac:(lia)) as Hdivb.
  pose proof (Z.mod_pos_bound a 16 ltac:(lia)).
  pose proof (Z.mod_pos_bound b 16 ltac:(lia)).
  apply hexdigit_inj in Hhi; [|lia..].
  apply hexdigit_inj in Hlo; [|lia..].
  f_equal; [lia|]. by apply IH.
Qed.

End hex.

(** X11: comparing the hexadecimal texts is comparing the tags.  For
    every sequence of bytes, of whatever length, [Verify] accepts its
    hexadecimal text exactly when the sequence is the MAC of the
    canonical string under the secret: nothing but the text of the tag
    itself is accepted, and two maps have the same signature only when
    their tags are the same. *)
Theorem Verify_hex_tag s iter (params : gmap string Signature.any)
    (tag : list Z) :
  Forall Bytes.is_byte tag →
  Signature.Verify s iter (Some params) (Hex.EncodeToString tag)
  = (bool_decide
       (tag = Hmac.Sum (GoString.bytes (Signature.secret s))
                (GoString.bytes
                   (Signature.buildSignatureString s iter params))),
     None)
  ∧ ∀ s' iter' params',
      Signature.Sign s' iter' (Some params')
      = Signature.Sign s iter (Some params) →
      Hmac.Sum (GoString.bytes (Signature.secret s'))
        (GoString.bytes (Signature.buildSignatureString s' iter' params'))
      = Hmac.Sum (GoString.bytes (Signature.secret s))
          (GoString.bytes (Signature.buildSignatureString s iter params)).
Proof.
  intros Htag. split.
  - rewrite Verify_Some, Sign_Some. cbn [fst]. f_equal.
    apply bool_decide_ext. split.
    + intros Heq. symmetry.
      apply EncodeToString_inj; [apply Hmac_Sum_is_byte|done|done].
    + by intros ->.
  - intros s' iter' params'. rewrite !Sign_Some. intros Heq.
    apply (f_equal fst) in Heq. cbn [fst] in Heq.
    apply EncodeToString_inj; [apply Hmac_Sum_is_byte..|done].
Qed.

Lemma Verify_hex_tag_witness :
  Signature.Verify (Signature.NewSigner "test-secret")
    (map_to_list Examples.signature_format)
    (Some Examples.signature_format) (Hex.EncodeToString [171; 205])
  = (bool_decide
       ([171; 205]
        = Hmac.Sum
            (GoString.bytes
               (Signature.secret (Signature.NewSigner "test-secret")))
            (GoString.bytes
               (Signature.buildSignatureString
                  (Signature.NewSigner "test-secret")
                  (map_to_list Examples.signature_format)
                  Examples.signature_format))),
     None).
Proof.
  apply (Verify_hex_tag (Signature.NewSigner "test-secret")
           (map_to_list Examples.signature_format)
           Examples.signature_format [171; 205]).
  constructor; [unfold Bytes.is_byte; lia|].
  constructor; [unfold Bytes.is_byte; lia|]. constructor.
Defined.
